(** * Coffee-shop bookkeeping bot: a shallow embedding of [api/webhook.js]

    The development follows the source file from top to bottom: the
    JavaScript built-ins the handlers rely on (binary64 numbers,
    [Math.round], [parseFloat], string case mapping, the regular
    expressions), the price catalog [MENU], the text heuristics, the
    ledger (the Sales, Debts and Summary sheets), [updateSummary], the
    [/settle] command, the natural-language handler and the other commands;
    the properties come last, those of the specification first.

    Conventions of the embedding.
    - A JavaScript number is a binary64 value: Rocq's primitive [float],
      whose operations are the IEEE 754 ones the engine computes with.
    - A string is a [string] whose characters are UTF-16 code units below
      256; text using other code units is outside the model.
    - A quantity is the integer the language model is asked for
      ([qty : option Z]); it is turned into a number where the source
      computes with it.
    - The language model, the chat front end, the clock and the sheet
      service are collaborators: the parse result and the clock reading
      are inputs (one reading per handler run), replies are collected in
      an outbox, and the three sheets are ordered lists of typed rows
      (header rows left implicit, all rows within the 10000 the handlers
      read and clear). Calls to the sheet service are assumed to succeed,
      and a number written to a cell is read back as written.
    - [MENU] and the table of intents are looked up on their own keys;
      as names of items and intents, names of [Object.prototype] members
      are outside the model. The grouping of [/debts] models them. *)

From Stdlib Require Import ZArith List String Ascii Bool Lia Sorted.
From Stdlib Require Import Floats.
From stdpp Require Import base option list strings gmap.
Import ListNotations.

Set Warnings "-inexact-float".
Local Open Scope Z_scope.

(** ** JavaScript numbers *)

Module JS.

(** The number whose value is the integer [z], rounded to nearest-even when
    [z] needs more than 53 bits (numeric literals, [parseInt]). *)
Definition Z2f (z : Z) : float :=
  if Z.abs z <? 9007199254740992
  then (if z <? 0 then PrimFloat.opp (PrimFloat.of_uint63 (Uint63.of_Z (- z)))
        else PrimFloat.of_uint63 (Uint63.of_Z z))
  else SF2Prim (binary_normalize prec emax z 0 false).

(** [Math.round(x)] as an integer: floor(x + 1/2) computed on the exact value
    of [x]; [None] when [x] is NaN, infinite or a zero, or has no fractional
    bits (then [Math.round] returns [x] itself). *)
Definition roundZ (x : float) : option Z :=
  match Prim2SF x with
  | S754_finite s m (Zneg d) =>
      let v := if s then Z.neg m else Z.pos m in
      Some (Z.shiftr (2 * v + 2 ^ Z.pos d) (Z.pos d + 1))
  | _ => None
  end.

(** [Math.round]: halves go towards +Infinity, and a result of zero keeps the
    sign of the argument. *)
Definition Math_round (x : float) : float :=
  match roundZ x with
  | Some n => if n =? 0 then (if PrimFloat.ltb x 0 then (-0)%float else 0%float) else Z2f n
  | None => x
  end.

(** [Math.round(x * 100) / 100], the source's rounding to two decimals. *)
Definition round2 (x : float) : float := (Math_round (x * 100) / 100)%float.

(** The amount of [k] cents, as [round2] produces it. *)
Definition cents (k : Z) : float := (Z2f k / 100)%float.

(** [Number.isFinite]. *)
Definition isFinite (x : float) : bool := PrimFloat.is_finite x.

(** Truthiness of a number: everything but NaN, [0] and [-0]. *)
Definition truthy (x : float) : bool :=
  negb (PrimFloat.is_nan x || PrimFloat.is_zero x).

(** [x || d] for a number [x]. *)
Definition orNum (x d : float) : float := if truthy x then x else d.

(** The number denoted by the decimal [m * 10^e] ([m >= 0]), correctly
    rounded, with sign [neg]: the value of a decimal literal. *)
Definition dec2f (neg : bool) (m e : Z) : float :=
  if m =? 0 then (if neg then (-0)%float else 0%float)
  else if 0 <=? e then SF2Prim (binary_normalize prec emax (if neg then - (m * 10 ^ e) else m * 10 ^ e) 0 false)
  else
    let '(q, e', l) := SFdiv_core_binary prec emax m 0 (10 ^ (- e)) 0 in
    SF2Prim (binary_round_aux prec emax neg q e' l).

End JS.

(** ** JavaScript strings *)

Module Str.

Definition code (c : ascii) : N := N_of_ascii c.

Definition inRange (lo hi : N) (c : ascii) : bool :=
  (lo <=? code c)%N && (code c <=? hi)%N.

(** White space and line terminators among the code units below 256:
    what [\s] matches and what [trim] strips. *)
Definition isSpace (c : ascii) : bool :=
  inRange 9 13 c || (code c =? 32)%N || (code c =? 160)%N.

Definition isDigit (c : ascii) : bool := inRange 48 57 c.

(** [\w]: ASCII letters, digits and the underscore. *)
Definition isWord (c : ascii) : bool :=
  inRange 97 122 c || inRange 65 90 c || isDigit c || (code c =? 95)%N.

(** [toLowerCase] on one code unit: A-Z and the Latin-1 capitals. *)
Definition lowerChar (c : ascii) : ascii :=
  if inRange 65 90 c || (inRange 192 222 c && negb (code c =? 215)%N)
  then ascii_of_N (code c + 32) else c.

(** [toUpperCase] on a word character. *)
Definition upperAscii (c : ascii) : ascii :=
  if inRange 97 122 c then ascii_of_N (code c - 32) else c.

Fixpoint mapChars (f : ascii -> ascii) (s : string) : string :=
  match s with
  | EmptyString => EmptyString
  | String c s' => String (f c) (mapChars f s')
  end.

Definition toLowerCase : string -> string := mapChars lowerChar.

Fixpoint trimStart (s : string) : string :=
  match s with
  | String c s' => if isSpace c then trimStart s' else s
  | EmptyString => EmptyString
  end.

Fixpoint trimEnd (s : string) : string :=
  match s with
  | EmptyString => EmptyString
  | String c s' =>
      match trimEnd s' with
      | EmptyString => if isSpace c then EmptyString else String c EmptyString
      | t => String c t
      end
  end.

Definition trim (s : string) : string := trimEnd (trimStart s).

(** [s.startsWith(p)]. *)
Fixpoint startsWith (p s : string) : bool :=
  match p, s with
  | EmptyString, _ => true
  | String a p', String b s' => Ascii.eqb a b && startsWith p' s'
  | String _ _, EmptyString => false
  end.

(** [capitalize]: [s.replace(/\b\w/g, c => c.toUpperCase())], every word
    character that starts a word is upper-cased. *)
Fixpoint capitalizeFrom (prevWord : bool) (s : string) : string :=
  match s with
  | EmptyString => EmptyString
  | String c s' =>
      String (if isWord c && negb prevWord then upperAscii c else c)
             (capitalizeFrom (isWord c) s')
  end.

Definition capitalize : string -> string := capitalizeFrom false.

(** The digits of a non-empty decimal numeral as an integer. *)
Fixpoint digitsVal (acc : Z) (s : string) : Z :=
  match s with
  | String c s' => digitsVal (10 * acc + (Z.of_N (code c) - 48)) s'
  | EmptyString => acc
  end.

(** The longest prefix of digits, and what follows it. *)
Fixpoint spanDigits (s : string) : string * string :=
  match s with
  | String c s' =>
      if isDigit c then let '(d, r) := spanDigits s' in (String c d, r)
      else (EmptyString, s)
  | EmptyString => (EmptyString, EmptyString)
  end.

(** The exponent part [e[+-]ddd] of a decimal literal, when one is there. *)
Definition exponentPart (s : string) : Z :=
  match s with
  | String c s' =>
      if Ascii.eqb c "e" || Ascii.eqb c "E" then
        match s' with
        | String sg s'' =>
            if Ascii.eqb sg "-" then
              match spanDigits s'' with
              | (EmptyString, _) => 0
              | (d, _) => - digitsVal 0 d
              end
            else
              match spanDigits (if Ascii.eqb sg "+" then s'' else s') with
              | (EmptyString, _) => 0
              | (d, _) => digitsVal 0 d
              end
        | EmptyString => 0
        end
      else 0
  | EmptyString => 0
  end.

(** [parseFloat(s)] for a string: leading white space is skipped, then the
    longest prefix that is a decimal literal (or [Infinity]) is read; NaN
    when there is none. *)
Definition parseFloat (s : string) : float :=
  let t := trimStart s in
  let '(neg, u) :=
    match t with
    | String c t' =>
        if Ascii.eqb c "-" then (true, t')
        else if Ascii.eqb c "+" then (false, t') else (false, t)
    | EmptyString => (false, t)
    end in
  if startsWith "Infinity" u then (if neg then neg_infinity else infinity)
  else
    let '(ip, r) := spanDigits u in
    let '(fp, r') :=
      match r with
      | String c r1 => if Ascii.eqb c "." then spanDigits r1 else (EmptyString, r)
      | EmptyString => (EmptyString, r)
      end in
    match ip, fp with
    | EmptyString, EmptyString => nan
    | _, _ =>
        JS.dec2f neg (digitsVal 0 (ip ++ fp)%string)
                 (exponentPart r' - Z.of_nat (String.length fp))
    end.

End Str.

(** ** Regular expressions

    A backtracking matcher with the priorities of the ECMAScript one:
    alternatives are tried from the left, quantifiers are greedy, and the
    first starting position that admits a match wins. All patterns of the
    source carry the [i] flag, so literals are compared up to ASCII case. *)

Module Regex.

Inductive regex : Type :=
| Eps
| Chr (c : ascii)
| Cls (p : ascii -> bool)
| Seq (r1 r2 : regex)
| Alt (r1 r2 : regex)
| Opt (r : regex)
| Star (r : regex)
| WordB
| Group (r : regex).

Definition Plus (r : regex) : regex := Seq r (Star r).

(** A literal word, character by character. *)
Fixpoint lit (s : string) : regex :=
  match s with
  | EmptyString => Eps
  | String c EmptyString => Chr c
  | String c s' => Seq (Chr c) (lit s')
  end.

(** [(?:a|b|...)] *)
Fixpoint oneOf (rs : list regex) : regex :=
  match rs with
  | [] => Eps
  | [r] => r
  | r :: rs' => Alt r (oneOf rs')
  end.

Fixpoint seqs (rs : list regex) : regex :=
  match rs with
  | [] => Eps
  | [r] => r
  | r :: rs' => Seq r (seqs rs')
  end.

(** Where the matcher stands: the character before the position, the text
    still to read, and the groups captured so far. *)
Record mstate := MState { prev : option ascii; rest : string; caps : list string }.

Definition isWordOpt (o : option ascii) : bool :=
  match o with Some c => Str.isWord c | None => false end.

Definition nextChar (s : string) : option ascii :=
  match s with String c _ => Some c | EmptyString => None end.

Definition atBoundary (st : mstate) : bool :=
  xorb (isWordOpt (prev st)) (isWordOpt (nextChar (rest st))).

Definition ciEq (p c : ascii) : bool :=
  Ascii.eqb (Str.upperAscii p) (Str.upperAscii c).

Definition step (ok : ascii -> bool) (st : mstate) (k : mstate -> option mstate) : option mstate :=
  match rest st with
  | String c s' => if ok c then k (MState (Some c) s' (caps st)) else None
  | EmptyString => None
  end.

(** The text consumed between two positions of the same scan. *)
Definition consumed (st st' : mstate) : string :=
  substring 0 (String.length (rest st) - String.length (rest st')) (rest st).

Fixpoint run (r : regex) (st : mstate) (k : mstate -> option mstate) {struct r} : option mstate :=
  match r with
  | Eps => k st
  | Chr c => step (ciEq c) st k
  | Cls p => step p st k
  | Seq r1 r2 => run r1 st (fun st' => run r2 st' k)
  | Alt r1 r2 =>
      match run r1 st k with
      | Some m => Some m
      | None => run r2 st k
      end
  | Opt r1 =>
      match run r1 st k with
      | Some m => Some m
      | None => k st
      end
  | Star r1 =>
      (fix loop (fuel : nat) (st : mstate) {struct fuel} : option mstate :=
         match fuel with
         | O => k st
         | S fuel' =>
             match run r1 st (fun st' =>
                     if (String.length (rest st') <? String.length (rest st))%nat
                     then loop fuel' st' else None) with
             | Some m => Some m
             | None => k st
             end
         end) (String.length (rest st)) st
  | WordB => if atBoundary st then k st else None
  | Group r1 =>
      run r1 st (fun st' => k (MState (prev st') (rest st') (caps st' ++ [consumed st st'])))
  end.

(** The leftmost match, scanning the start position from [s] on. *)
Fixpoint searchFrom (r : regex) (p : option ascii) (s : string) : option mstate :=
  match run r (MState p s []) Some with
  | Some m => Some m
  | None =>
      match s with
      | String c s' => searchFrom r (Some c) s'
      | EmptyString => None
      end
  end.

(** [re.test(text)] *)
Definition test (r : regex) (text : string) : bool :=
  match searchFrom r None text with Some _ => true | None => false end.

(** [text.match(re)[1]], for a pattern with one group. *)
Definition match1 (r : regex) (text : string) : option string :=
  match searchFrom r None text with
  | Some m => head (caps m)
  | None => None
  end.

Definition digit : regex := Cls Str.isDigit.
Definition space : regex := Cls Str.isSpace.

(** [\d+(?:\.\d+)?] *)
Definition number : regex := Seq (Plus digit) (Opt (Seq (Chr ".") (Plus digit))).

(** [(?:aed|dhs?|dirhams?)?] *)
Definition currency : regex :=
  Opt (oneOf [lit "aed"; Seq (lit "dh") (Opt (Chr "s")); Seq (lit "dirham") (Opt (Chr "s"))]).

End Regex.

Import JS Str.

(** ** The catalog *)

Record menuItem := MenuItem { price : float; category : string }.

(** [MENU]: prices in AED. Lookups are on the catalog's own keys. *)
Definition MENU : gmap string menuItem :=
  list_to_map
    [ ("matcha latte",         MenuItem 20 "Matcha");
      ("usucha matcha",        MenuItem 20 "Matcha");
      ("coco matcha",          MenuItem 25 "Matcha");
      ("salted cloudy matcha", MenuItem 25 "Matcha");
      ("matcha tonic",         MenuItem 25 "Matcha");
      ("vietnamese coffee",    MenuItem 20 "Coffee");
      ("espresso",             MenuItem 20 "Coffee");
      ("americano",            MenuItem 20 "Coffee");
      ("espresso/americano",   MenuItem 20 "Coffee");
      ("cold brew",            MenuItem 20 "Coffee");
      ("coco coolbrew",        MenuItem 25 "Coffee");
      ("latte",                MenuItem 25 "Coffee");
      ("espresso tonic",       MenuItem 25 "Coffee");
      ("salted cloudy coffee", MenuItem 25 "Coffee") ].

Global Opaque MENU.

(** ** What the language model returns *)

(** A JSON scalar as the [paid] field may hold it. *)
Inductive jsval : Type :=
| JNull
| JNum (x : float)
| JStr (s : string).

(** One entry of [items]: [{ name, qty }]. *)
Record item := Item { name : option string; qty : option Z }.

(** The object [parseWithGroq] returns; [items = None] stands for a value
    that is not an array, [customer = None] for [null]. *)
Record parsedMsg := Parsed {
  intent : string;
  items : option (list item);
  customer : option string;
  paid : jsval
}.

(** ** Utilities *)

(** [parseFloat(v)] for a scalar: a number is read back from its own
    rendering. *)
Definition parseFloatVal (v : jsval) : float :=
  match v with
  | JNull => nan
  | JNum x => if PrimFloat.is_zero x then 0%float else x
  | JStr s => parseFloat s
  end.

Definition parseNumberOrNull (v : jsval) : option float :=
  let n := parseFloatVal v in
  if isFinite n then Some n else None.

Import Regex.

Definition payVerb : regex :=
  oneOf [Seq (lit "pai") (Opt (Chr "d")); lit "pay"; lit "pays"; lit "payment"].

(** [/\b(?:paid?|pay|pays|payment)\s+(?:nothing|none|zero)\b/i] *)
Definition rePaidNothing : regex :=
  seqs [WordB; payVerb; Plus space; oneOf [lit "nothing"; lit "none"; lit "zero"]; WordB].

(** [/\bno payment\b/i] *)
Definition reNoPayment : regex := seqs [WordB; lit "no payment"; WordB].

(** [/\b(?:paid?|pay|pays|payment|gave|give|handed)\s*(?:aed|dhs?|dirhams?)?\s*(\d+(?:\.\d+)?)\b/i] *)
Definition reVerbAmount : regex :=
  seqs [WordB;
        oneOf [Seq (lit "pai") (Opt (Chr "d")); lit "pay"; lit "pays"; lit "payment";
               lit "gave"; lit "give"; lit "handed"];
        Star space; currency; Star space; Group number; WordB].

(** [/\b(\d+(?:\.\d+)?)\s*(?:aed|dhs?|dirhams?)?\s*(?:paid?|pay|pays)\b/i] *)
Definition reAmountVerb : regex :=
  seqs [WordB; Group number; Star space; currency; Star space;
        oneOf [Seq (lit "pai") (Opt (Chr "d")); lit "pay"; lit "pays"]; WordB].

(** The test that opens [extractPaidAmount]: a "paid nothing" or a
    "no payment" phrasing. *)
Definition zeroPaymentPhrase (text : string) : bool :=
  test rePaidNothing text || test reNoPayment text.

Fixpoint firstAmount (patterns : list regex) (text : string) : option float :=
  match patterns with
  | [] => None
  | pattern :: more =>
      match match1 pattern text with
      | None => firstAmount more text
      | Some m =>
          match parseNumberOrNull (JStr m) with
          | Some amount => Some amount
          | None => firstAmount more text
          end
      end
  end.

Definition extractPaidAmount (text : string) : option float :=
  if zeroPaymentPhrase text then Some 0%float
  else firstAmount [reVerbAmount; reAmountVerb] text.

(** The pattern [\b(?:to|for)\s+(NAME)\b] with flag [i], where NAME is a
    letter followed by any number of letters, digits, quotes, underscores
    and hyphens. *)
Definition reCustomer : regex :=
  seqs [WordB; oneOf [lit "to"; lit "for"]; Plus space;
        Group (Seq (Cls (fun c => inRange 97 122 c || inRange 65 90 c))
                   (Star (Cls (fun c => inRange 97 122 c || inRange 65 90 c || isDigit c
                                        || Ascii.eqb c "'" || Ascii.eqb c "_" || Ascii.eqb c "-"))));
        WordB].

Definition inferCustomerFromText (text : string) : option string :=
  match1 reCustomer text.

(** [(it.name || "").toLowerCase().trim()] *)
Definition itemKey (it : item) : string :=
  trim (toLowerCase (default "" (name it))).

(** [Math.max(1, parseInt(it.qty, 10) || 1)] *)
Definition quantity (it : item) : Z :=
  Z.max 1 (match qty it with
           | Some q => if q =? 0 then 1 else q
           | None => 1
           end).

(** The callback of the [reduce] in [inferTotalFromItems]. *)
Definition addPrice (sum : float) (it : item) : float :=
  match MENU !! itemKey it with
  | None => sum
  | Some m => (sum + price m * Z2f (quantity it))%float
  end.

Definition inferTotalFromItems (its : option (list item)) : float :=
  match its with
  | None => 0%float
  | Some l => fold_left addPrice l 0%float
  end.

Definition hasLatteWord (userText : string) : bool :=
  test (seqs [WordB; lit "latte"; WordB]) userText.

Definition hasMatchaWord (userText : string) : bool :=
  test (seqs [WordB; lit "matcha"; WordB]) userText.

Definition normalizeItem (userText : string) (it : item) : item :=
  if String.eqb (itemKey it) "matcha latte" && hasLatteWord userText && negb (hasMatchaWord userText)
  then Item (Some "latte") (qty it)
  else it.

Definition normalizeAmbiguousItems (its : option (list item)) (userText : string) : list item :=
  match its with
  | None => []
  | Some l => map (normalizeItem userText) l
  end.

(** ** The ledger *)

(** A row of the Sales sheet:
    [Date, Time, Item, Category, Price, Paid, Owed, Customer/Note]. *)
Record SaleRow := MkSale {
  sDate : string;
  sTime : string;
  sItem : string;
  sCategory : string;
  unitPrice : float;
  amountPaid : float;
  amountOwed : float;
  customerOrNote : string
}.

(** A row of the Debts sheet:
    [Date, Customer, Item, Item Price, Paid, Still Owes, Status, Settled On]. *)
Record DebtRow := MkDebt {
  dDate : string;
  dCustomer : string;
  dItem : string;
  dPrice : float;
  dPaid : float;
  dOwed : float;
  dStatus : string;
  dSettledOn : string
}.

(** A value of the Summary sheet: a text, a count, or an amount followed by
    [" AED"]. *)
Inductive sval : Type :=
| VText (s : string)
| VCount (n : nat)
| VAed (x : float).

Record Store := MkStore {
  sales : list SaleRow;
  debts : list DebtRow;
  summary : list (string * sval)
}.

(** One reading of the clock: [formatDate(new Date())],
    [formatTime(new Date())] and [new Date().toLocaleString()]. *)
Record Clock := MkClock { today : string; timeOfDay : string; stamp : string }.

(** A line of a receipt: [qty x Item = amount AED]. *)
Record line := MkLine { lQty : Z; lItem : string; lAmount : float }.

(** What the bot says, by message. *)
Inductive reply : Type :=
| RNoAI
| RNoItemsSale
| RNoItemsDebt
| RItemNotFound (n : option string)
| RSaleRecorded (lines : list line) (total : float)
| RPaidExceeds (totalPaid totalItemPrice : float)
| RDebtRecorded (lines : list line) (totalItemPrice totalPaid : float)
                (owes : option float) (who : string)
| RSettleUsage
| RWhoToSettle
| RNoPending (who : string)
| RSettled (amount : float) (who : string)
| RUse (command : string)
| RClearAllHint
| RNotUnderstood.

(** The state a handler runs in: the sheets and the replies sent so far. *)
Record World := MkWorld { store : Store; outbox : list reply }.

(** Handlers are written in a state monad over [World]. *)
Definition M (A : Type) : Type := World -> A * World.

Definition ret {A} (a : A) : M A := fun w => (a, w).

Definition bind {A B} (m : M A) (f : A -> M B) : M B :=
  fun w => let '(a, w') := m w in f a w'.

Notation "x <- c1 ;; c2" := (bind c1 (fun x => c2))
  (at level 100, c1 at next level, right associativity).
Notation "c1 >> c2" := (bind c1 (fun _ => c2))
  (at level 100, right associativity).

Definition ctxReply (r : reply) : M unit :=
  fun w => (tt, MkWorld (store w) (outbox w ++ [r])).

Definition getStore : M Store := fun w => (store w, w).

Definition putStore (s : Store) : M unit := fun w => (tt, MkWorld s (outbox w)).

(** [appendRow(sheets, SHEET_SALES, row)] *)
Definition appendSale (r : SaleRow) : M unit :=
  s <- getStore ;; putStore (MkStore (sales s ++ [r]) (debts s) (summary s)).

(** [appendRow(sheets, SHEET_DEBT, row)] *)
Definition appendDebt (r : DebtRow) : M unit :=
  s <- getStore ;; putStore (MkStore (sales s) (debts s ++ [r]) (summary s)).

(** [updateCell(sheets, SHEET_DEBT, i + 1, 7, "Settled")] followed by
    [updateCell(sheets, SHEET_DEBT, i + 1, 8, date)], for the data row of
    index [i]. *)
Definition markSettled (on : string) (r : DebtRow) : DebtRow :=
  MkDebt (dDate r) (dCustomer r) (dItem r) (dPrice r) (dPaid r) (dOwed r) "Settled" on.

Definition settleCell (i : nat) (on : string) : M unit :=
  s <- getStore ;;
  putStore (MkStore (sales s) (alter (markSettled on) i (debts s)) (summary s)).

(** A [for] loop that runs its body [n] times. *)
Fixpoint times (n : nat) (body : M unit) : M unit :=
  match n with
  | O => ret tt
  | S n' => body >> times n' body
  end.

(** [for (const x of xs) body(x)], threading a loop variable. *)
Fixpoint forEach {A S} (xs : list A) (acc : S) (body : S -> A -> M S) : M S :=
  match xs with
  | [] => ret acc
  | x :: xs' => acc' <- body acc x ;; forEach xs' acc' body
  end.

(** A numeric cell read back and parsed: [parseFloat(r[i]) || 0]. A number
    that is not finite is stored as an empty cell. *)
Definition cellNum (x : float) : float :=
  orNum (if isFinite x then x else nan) 0.

(** ** [updateSummary] *)

Definition sumOf {A} (f : A -> float) (rows : list A) : float :=
  fold_left (fun s r => (s + cellNum (f r))%float) rows 0%float.

Definition summaryRows (now : Clock) (s : Store) : list (string * sval) :=
  let totalRevenue := sumOf unitPrice (sales s) in
  let totalCollected := sumOf amountPaid (sales s) in
  let totalOwed := sumOf dOwed (filter (fun r => dStatus r = "Pending") (debts s)) in
  let totalSettled := sumOf dOwed (filter (fun r => dStatus r = "Settled") (debts s)) in
  let todaySales := filter (fun r => sDate r = today now) (sales s) in
  let todayRev := sumOf unitPrice todaySales in
  let todayPaid := sumOf amountPaid todaySales in
  [ ("Metric", VText "Value");
    ("Last Updated", VText (stamp now));
    ("--- TODAY ---", VText "");
    ("Today's Revenue", VAed todayRev);
    ("Today's Collected", VAed todayPaid);
    ("--- ALL TIME ---", VText "");
    ("Total Revenue", VAed totalRevenue);
    ("Total Collected", VAed totalCollected);
    ("Total Transactions", VCount (length (sales s)));
    ("--- DEBTS ---", VText "");
    ("Unsettled Debts", VAed totalOwed);
    ("Settled Debts", VAed totalSettled) ].

(** [updateSummary]: the Summary sheet is cleared and rewritten with
    [summaryRows] (whose separator labels are spelled with hyphens here);
    Sales and Debts are only read. *)
Definition updateSummary (now : Clock) : M unit :=
  s <- getStore ;;
  putStore (MkStore (sales s) (debts s) (summaryRows now s)).

(** ** Settlement *)

(** [amount === null || settled + rowOwed <= amount + 0.01] *)
Definition capOK (amount : option float) (settled rowOwed : float) : bool :=
  match amount with
  | None => true
  | Some a => PrimFloat.leb (settled + rowOwed) (a + 0.01)
  end.

(** [(data[i][1] || "").toLowerCase() === name.toLowerCase()
     && data[i][6] === "Pending"] *)
Definition pendingFor (who : string) (r : DebtRow) : bool :=
  String.eqb (toLowerCase (dCustomer r)) (toLowerCase who) && String.eqb (dStatus r) "Pending".

(** The loop both settle handlers run over the rows read from the Debts
    sheet, from data row [i] on; it yields the running total [settled]. *)
Fixpoint settleLoop (who : string) (amount : option float) (now : Clock)
    (i : nat) (data : list DebtRow) (settled : float) : M float :=
  match data with
  | [] => ret settled
  | r :: data' =>
      if pendingFor who r then
        let rowOwed := cellNum (dOwed r) in
        if capOK amount settled rowOwed then
          settleCell i (today now) >>
          settleLoop who amount now (S i) data' (settled + rowOwed)%float
        else settleLoop who amount now (S i) data' settled
      else settleLoop who amount now (S i) data' settled
  end.

(** What follows the loop in both handlers. *)
Definition settleFor (who : string) (amount : option float) (now : Clock) : M unit :=
  s <- getStore ;;
  settled <- settleLoop who amount now 0 (debts s) 0%float ;;
  updateSummary now >>
  if PrimFloat.eqb settled 0 then ctxReply (RNoPending who)
  else ctxReply (RSettled (round2 settled) who).

(** [s.replace(p, "")]: the first occurrence of [p] is removed. *)
Fixpoint removeFirst (p s : string) : string :=
  if startsWith p s then substring (String.length p) (String.length s) s
  else match s with
       | String c s' => String c (removeFirst p s')
       | EmptyString => EmptyString
       end.

(** [s.split(/\s+/)] *)
Fixpoint splitWs (inGap : bool) (cur s : string) : list string :=
  match s with
  | EmptyString => [cur]
  | String c s' =>
      if isSpace c then (if inGap then splitWs true cur s' else cur :: splitWs true "" s')
      else splitWs false (cur ++ String c "")%string s'
  end.

(** The argument of [/settle]: a customer name and, when the last of
    several words reads as a number, a cap. *)
Definition settleArgs (messageText : string) : string * option float :=
  let parts := splitWs false "" (trim (removeFirst "/settle" messageText)) in
  let last := List.last parts "" in
  let hasAmt := negb (PrimFloat.is_nan (parseFloat last)) && (1 <? length parts)%nat in
  if hasAmt then (String.concat " " (removelast parts), Some (parseFloat last))
  else (String.concat " " parts, None).

(** [bot.command('settle', ...)] *)
Definition settleCommand (now : Clock) (messageText : string) : M unit :=
  let '(who, amount) := settleArgs messageText in
  if String.eqb who "" then ctxReply RSettleUsage
  else settleFor who amount now.

(** ** The natural-language handler *)

(** [paidFromModel !== null ? paidFromModel : paidFromText] *)
Definition explicitPaid (text : string) (parsed : parsedMsg) : option float :=
  match parseNumberOrNull (paid parsed) with
  | Some paidFromModel => Some paidFromModel
  | None => extractPaidAmount text
  end.

(** The reclassification test of the handler. *)
Definition underpaidSale (kind : string) (explicit : option float) (inferredTotal : float) : bool :=
  String.eqb kind "sale" &&
  match explicit with
  | Some p => PrimFloat.ltb 0 inferredTotal && PrimFloat.ltb p (inferredTotal - 0.01)
  | None => false
  end.

(** The parse result after the handler has merged the text heuristics into
    it: items normalized, [paid] and [customer] filled in, a sale that is
    under-paid turned into a debt. *)
Definition resolveIntent (text : string) (parsed : parsedMsg) : parsedMsg :=
  let its := normalizeAmbiguousItems (items parsed) text in
  let explicit := explicitPaid text parsed in
  let paid' := match explicit with Some p => JNum p | None => paid parsed end in
  let customer' :=
    match customer parsed with
    | Some (String c s) => Some (String c s)
    | _ => match inferCustomerFromText text with
           | Some hinted => Some hinted
           | None => customer parsed
           end
    end in
  let inferredTotal := inferTotalFromItems (Some its) in
  let intent' := if underpaidSale (intent parsed) explicit inferredTotal then "debt" else intent parsed in
  Parsed intent' (Some its) customer' paid'.

Definition itemsOf (parsed : parsedMsg) : list item := default [] (items parsed).

(** The sale branch. *)
Definition recordSale (now : Clock) (parsed : parsedMsg) : M unit :=
  match itemsOf parsed with
  | [] => ctxReply RNoItemsSale
  | its =>
      r <- forEach its (0%float, [])
             (fun '(total, lines) it =>
                let key := itemKey it in
                match MENU !! key with
                | None => ctxReply (RItemNotFound (name it)) >> ret (total, lines)
                | Some m =>
                    let qty := quantity it in
                    times (Z.to_nat qty)
                      (appendSale (MkSale (today now) (timeOfDay now) (capitalize key) (category m)
                                          (price m) (price m) 0 "Paid in full")) >>
                    ret ((total + price m * Z2f qty)%float,
                         lines ++ [MkLine qty (capitalize key) (price m * Z2f qty)%float])
                end) ;;
      let '(total, lines) := r in
      match lines with
      | [] => ret tt
      | _ => updateSummary now >> ctxReply (RSaleRecorded lines total)
      end
  end.

(** An entry of [validItems]: [{ key, item, qty }]. *)
Record validItem := Valid { vKey : string; vItem : menuItem; vQty : Z }.

(** The first loop of the debt branch: the items found in the catalog and
    the sum of their prices. *)
Definition resolveItems (its : list item) : M (float * list validItem) :=
  forEach its (0%float, [])
    (fun '(totalItemPrice, validItems) it =>
       let key := itemKey it in
       match MENU !! key with
       | None => ctxReply (RItemNotFound (name it)) >> ret (totalItemPrice, validItems)
       | Some m =>
           let qty := quantity it in
           ret ((totalItemPrice + price m * Z2f qty)%float, validItems ++ [Valid key m qty])
       end).

Definition itemTotalOf (v : validItem) : float := (price (vItem v) * Z2f (vQty v))%float.

Definition itemPaidOf (totalItemPrice totalPaid : float) (v : validItem) : float :=
  if PrimFloat.ltb 0 totalItemPrice
  then round2 (itemTotalOf v / totalItemPrice * totalPaid)
  else 0%float.

Definition itemOwedOf (totalItemPrice totalPaid : float) (v : validItem) : float :=
  round2 (itemTotalOf v - itemPaidOf totalItemPrice totalPaid v).

(** The paid share of one unit: [Math.round((itemPaid / qty) * 100) / 100]. *)
Definition unitPaidOf (itemPaid : float) (q : Z) : float := round2 (itemPaid / Z2f q).

(** The rows written for one unit of a debt item. *)
Definition recordUnit (now : Clock) (who : string) (v : validItem) (itemPaid : float) : M unit :=
  let uP := unitPaidOf itemPaid (vQty v) in
  let uO := round2 (price (vItem v) - uP) in
  appendSale (MkSale (today now) (timeOfDay now) (capitalize (vKey v)) (category (vItem v))
                     (price (vItem v)) uP uO who) >>
  if PrimFloat.ltb 0 uO
  then appendDebt (MkDebt (today now) who (capitalize (vKey v)) (price (vItem v)) uP uO "Pending" "")
  else ret tt.

(** The second loop of the debt branch: allocation and the rows. *)
Definition allocate (now : Clock) (who : string) (totalItemPrice totalPaid : float)
    (validItems : list validItem) : M (list line * float) :=
  forEach validItems ([], 0%float)
    (fun '(lines, totalOwed) v =>
       let itemTotal := itemTotalOf v in
       let itemPaid := itemPaidOf totalItemPrice totalPaid v in
       let itemOwed := itemOwedOf totalItemPrice totalPaid v in
       times (Z.to_nat (vQty v)) (recordUnit now who v itemPaid) >>
       ret (lines ++ [MkLine (vQty v) (capitalize (vKey v)) itemTotal], (totalOwed + itemOwed)%float)).

(** [parseNumberOrNull(parsed.paid) || 0] *)
Definition totalPaidOf (parsed : parsedMsg) : float :=
  match parseNumberOrNull (paid parsed) with
  | Some n => orNum n 0
  | None => 0%float
  end.

(** The debt branch. *)
Definition recordDebt (now : Clock) (parsed : parsedMsg) : M unit :=
  match itemsOf parsed with
  | [] => ctxReply RNoItemsDebt
  | its =>
      let who := trim (match customer parsed with
                       | Some (String c s) => String c s
                       | _ => "Unknown"
                       end) in
      r <- resolveItems its ;;
      let '(totalItemPrice, validItems) := r in
      match validItems with
      | [] => ret tt
      | _ =>
          let totalPaid := totalPaidOf parsed in
          if PrimFloat.ltb totalItemPrice totalPaid
          then ctxReply (RPaidExceeds totalPaid totalItemPrice)
          else
            a <- allocate now who totalItemPrice totalPaid validItems ;;
            let '(lines, totalOwed) := a in
            updateSummary now >>
            ctxReply (RDebtRecorded lines totalItemPrice totalPaid
                        (if PrimFloat.ltb 0 totalOwed then Some totalOwed else None) who)
      end
  end.

(** The settle branch: [parseFloat(parsed.paid) || null] is the cap. *)
Definition settleAmount (parsed : parsedMsg) : option float :=
  let x := parseFloatVal (paid parsed) in
  if truthy x then Some x else None.

Definition settleIntent (now : Clock) (parsed : parsedMsg) : M unit :=
  match customer parsed with
  | Some (String c s) => settleFor (trim (String c s)) (settleAmount parsed) now
  | _ => ctxReply RWhoToSettle
  end.

(** [bot.on('text', ...)]: [ai] is what [parseWithGroq] returned. Intents
    are looked up among the handler's own keys. *)
Definition onText (now : Clock) (messageText : string) (ai : option parsedMsg) : M unit :=
  let text := trim messageText in
  if startsWith "/" text then ret tt
  else
    match ai with
    | None => ctxReply RNoAI
    | Some parsed0 =>
        let parsed := resolveIntent text parsed0 in
        if String.eqb (intent parsed) "sale" then recordSale now parsed
        else if String.eqb (intent parsed) "debt" then recordDebt now parsed
        else if String.eqb (intent parsed) "settle" then settleIntent now parsed
        else if String.eqb (intent parsed) "summary" then ctxReply (RUse "/summary")
        else if String.eqb (intent parsed) "debts" then ctxReply (RUse "/debts")
        else if String.eqb (intent parsed) "menu" then ctxReply (RUse "/menu")
        else if String.eqb (intent parsed) "help" then ctxReply (RUse "/help")
        else if String.eqb (intent parsed) "clearall" then ctxReply RClearAllHint
        else ctxReply RNotUnderstood
    end.

(** ** The commands

    [/menu], [/summary], [/debts] and [/clearall] send one message on every
    path; it is the result of the handler. *)

(** [Object.entries(MENU)]: the catalog in the order it is written. *)
Definition menuEntries : list (string * menuItem) :=
  [ ("matcha latte",         MenuItem 20 "Matcha");
    ("usucha matcha",        MenuItem 20 "Matcha");
    ("coco matcha",          MenuItem 25 "Matcha");
    ("salted cloudy matcha", MenuItem 25 "Matcha");
    ("matcha tonic",         MenuItem 25 "Matcha");
    ("vietnamese coffee",    MenuItem 20 "Coffee");
    ("espresso",             MenuItem 20 "Coffee");
    ("americano",            MenuItem 20 "Coffee");
    ("espresso/americano",   MenuItem 20 "Coffee");
    ("cold brew",            MenuItem 20 "Coffee");
    ("coco coolbrew",        MenuItem 25 "Coffee");
    ("latte",                MenuItem 25 "Coffee");
    ("espresso tonic",       MenuItem 25 "Coffee");
    ("salted cloudy coffee", MenuItem 25 "Coffee") ].

(** The figures of [/summary]. *)
Record tally := MkTally {
  todaySales : float;
  todayCollected : float;
  todayDebt : float;
  totalSales : float;
  totalCollected : float;
  txCount : nat
}.

(** A customer of the [/debts] listing: the name, the total owed rounded to
    two decimals, and one line per row (the item and what it owes). *)
Record debtGroup := MkGroup {
  gName : string;
  gTotal : float;
  gLines : list (string * float)
}.

(** What the commands send, by message. [AError] is the report of the global
    error handler when a handler throws. *)
Inductive answer : Type :=
| AMenu (matcha coffee : list (string * float))
| ASummary (day : string) (figures : tally) (unsettled : float)
| ANoDebts
| ADebts (groups : list debtGroup)
| AClearWarning
| ACleared
| AError.

(** One section of [/menu]: the entries of a category, as
    [capitalize(k) - price AED]. *)
Definition menuSection (cat : string) : list (string * float) :=
  map (fun e => (capitalize (fst e), price (snd e)))
      (filter (fun e => category (snd e) = cat) menuEntries).

(** [bot.command('menu', ...)] *)
Definition menuCommand : M answer :=
  ret (AMenu (menuSection "Matcha") (menuSection "Coffee")).

(** The body of the loop of [/summary] over the Sales rows. *)
Definition tallySale (day : string) (t : tally) (r : SaleRow) : tally :=
  let totalSales' := (totalSales t + cellNum (unitPrice r))%float in
  let totalCollected' := (totalCollected t + cellNum (amountPaid r))%float in
  let txCount' := S (txCount t) in
  if String.eqb (sDate r) day
  then MkTally (todaySales t + cellNum (unitPrice r))
               (todayCollected t + cellNum (amountPaid r))
               (todayDebt t + cellNum (amountOwed r))
               totalSales' totalCollected' txCount'
  else MkTally (todaySales t) (todayCollected t) (todayDebt t)
               totalSales' totalCollected' txCount'.

(** The body of its loop over the Debts rows. *)
Definition tallyDebt (unsettled : float) (r : DebtRow) : float :=
  if String.eqb (dStatus r) "Pending" then (unsettled + cellNum (dOwed r))%float else unsettled.

(** [bot.command('summary', ...)] *)
Definition summaryCommand (now : Clock) : M answer :=
  s <- getStore ;;
  let figures := fold_left (tallySale (today now)) (sales s) (MkTally 0 0 0 0 0 0) in
  let unsettled := fold_left tallyDebt (debts s) 0%float in
  ret (ASummary (today now) figures unsettled).

(** A property of [byCustomer]: [{ items, total }]. *)
Record debtInfo := MkInfo { infoItems : list (string * float); infoTotal : float }.

(** The names a plain object inherits from [Object.prototype]: reading one
    of them from [byCustomer] yields the inherited member, which is truthy
    and has no [items]. *)
Definition inherited : list string :=
  [ "constructor"; "__defineGetter__"; "__defineSetter__"; "hasOwnProperty";
    "__lookupGetter__"; "__lookupSetter__"; "isPrototypeOf"; "propertyIsEnumerable";
    "toString"; "valueOf"; "__proto__"; "toLocaleString" ].

(** [r[1] || "Unknown"] *)
Definition customerName (r : DebtRow) : string :=
  if String.eqb (dCustomer r) "" then "Unknown" else dCustomer r.

(** [byCustomer[name].items.push(...); byCustomer[name].total += ...] *)
Definition addTo (r : DebtRow) (info : debtInfo) : debtInfo :=
  MkInfo (infoItems info ++ [(dItem r, dOwed r)]) (infoTotal info + cellNum (dOwed r)).

(** An own property is updated in place; [None] when [obj] has no such own
    property. *)
Fixpoint updateOwn (name : string) (f : debtInfo -> debtInfo)
    (obj : list (string * debtInfo)) : option (list (string * debtInfo)) :=
  match obj with
  | [] => None
  | (k, v) :: obj' =>
      if String.eqb k name then Some ((k, f v) :: obj')
      else cons (k, v) <$> updateOwn name f obj'
  end.

(** The callback of [pending.forEach], on the own properties of
    [byCustomer] in creation order; [None] when it throws (a name that is
    inherited is not created, and has no [items] to push to). *)
Definition groupRow (obj : list (string * debtInfo)) (r : DebtRow)
    : option (list (string * debtInfo)) :=
  let name := customerName r in
  match updateOwn name (addTo r) obj with
  | Some obj' => Some obj'
  | None =>
      if bool_decide (name ∈ inherited) then None
      else Some (obj ++ [(name, addTo r (MkInfo [] 0))])
  end.

(** [pending.forEach(...)] *)
Fixpoint groupRows (obj : list (string * debtInfo)) (pending : list DebtRow)
    : option (list (string * debtInfo)) :=
  match pending with
  | [] => Some obj
  | r :: pending' =>
      match groupRow obj r with
      | Some obj' => groupRows obj' pending'
      | None => None
      end
  end.

(** A property name that is an array index: a canonical numeral below
    [2^32 - 1]. *)
Definition arrayIndex (s : string) : option Z :=
  match s with
  | EmptyString => None
  | String c s' =>
      if forallb isDigit (list_ascii_of_string s)
         && (negb (Ascii.eqb c "0") || String.eqb s' "")
         && (digitsVal 0 s <=? 4294967294)
      then Some (digitsVal 0 s)
      else None
  end.

(** Insertion of an array-index property among those sorted so far. *)
Fixpoint insertIndexed {A} (i : Z) (x : A) (l : list (Z * A)) : list (Z * A) :=
  match l with
  | [] => [(i, x)]
  | (j, y) :: l' => if i <=? j then (i, x) :: l else (j, y) :: insertIndexed i x l'
  end.

(** [Object.entries(obj)]: array indices in ascending order, then the other
    names in creation order. *)
Definition entries {A} (obj : list (string * A)) : list (string * A) :=
  map snd (fold_right (fun e acc => match arrayIndex (fst e) with
                                    | Some i => insertIndexed i e acc
                                    | None => acc
                                    end) [] obj)
  ++ filter (fun e => arrayIndex (fst e) = None) obj.

(** [bot.command('debts', ...)] *)
Definition debtsCommand : M answer :=
  s <- getStore ;;
  let pending := filter (fun r => dStatus r = "Pending"%string) (debts s) in
  match pending with
  | [] => ret ANoDebts
  | _ =>
      match groupRows [] pending with
      | None => ret AError
      | Some byCustomer =>
          ret (ADebts (map (fun e => MkGroup (fst e) (round2 (infoTotal (snd e)))
                                             (infoItems (snd e)))
                           (entries byCustomer)))
      end
  end.

(** [s.split(' ')] *)
Fixpoint splitOn (sep : ascii) (cur s : string) : list string :=
  match s with
  | EmptyString => [cur]
  | String c s' =>
      if Ascii.eqb c sep then cur :: splitOn sep "" s'
      else splitOn sep (cur ++ String c "")%string s'
  end.

(** [ctx.message.text.split(' ').slice(1).join(' ').trim()] *)
Definition clearallArg (messageText : string) : string :=
  trim (String.concat " " (tail (splitOn " " "" messageText))).

(** [bot.command('clearall', ...)]: with the argument [confirm], the rows of
    Sales and Debts are cleared and the Summary is rewritten. *)
Definition clearallCommand (now : Clock) (messageText : string) : M answer :=
  if String.eqb (clearallArg messageText) "confirm"
  then
    (s <- getStore ;; putStore (MkStore [] (debts s) (summary s))) >>
    (s <- getStore ;; putStore (MkStore (sales s) [] (summary s))) >>
    updateSummary now >>
    ret ACleared
  else ret AClearWarning.

(** * Vocabulary of the properties

    The notions the properties are stated with. *)

(** ** Rows and replies of the recorder

    What each loop of the sale and debt branches adds to the sheets and to
    the outbox, as plain lists. *)

(** The entry of [validItems] an item contributes, if the catalog has it. *)
Definition validOf (it : item) : option validItem :=
  (fun m => Valid (itemKey it) m (quantity it)) <$> MENU !! itemKey it.

(** The warning an item causes, if the catalog lacks it. *)
Definition warningOf (it : item) : list reply :=
  match MENU !! itemKey it with
  | None => [RItemNotFound (name it)]
  | Some _ => []
  end.

(** The world after [ss] was appended to Sales and [ds] to Debts. *)
Definition appended (ss : list SaleRow) (ds : list DebtRow) (w : World) : World :=
  MkWorld (MkStore (sales (store w) ++ ss) (debts (store w) ++ ds) (summary (store w)))
          (outbox w).

(** The Sales row of one unit of a debt item. *)
Definition unitSale (now : Clock) (who : string) (v : validItem) (itemPaid : float) : SaleRow :=
  let uP := unitPaidOf itemPaid (vQty v) in
  MkSale (today now) (timeOfDay now) (capitalize (vKey v)) (category (vItem v))
         (price (vItem v)) uP (round2 (price (vItem v) - uP)) who.

(** Its Debts row, written when the unit still owes something. *)
Definition unitDebt (now : Clock) (who : string) (v : validItem) (itemPaid : float) : list DebtRow :=
  let uP := unitPaidOf itemPaid (vQty v) in
  let uO := round2 (price (vItem v) - uP) in
  if PrimFloat.ltb 0 uO
  then [MkDebt (today now) who (capitalize (vKey v)) (price (vItem v)) uP uO "Pending" ""]
  else [].

(** All Sales rows of a debt item: one per unit. *)
Definition itemSales (now : Clock) (who : string) (totalItemPrice totalPaid : float)
    (v : validItem) : list SaleRow :=
  replicate (Z.to_nat (vQty v)) (unitSale now who v (itemPaidOf totalItemPrice totalPaid v)).

(** All Debts rows of a debt item. *)
Definition itemDebts (now : Clock) (who : string) (totalItemPrice totalPaid : float)
    (v : validItem) : list DebtRow :=
  concat (replicate (Z.to_nat (vQty v)) (unitDebt now who v (itemPaidOf totalItemPrice totalPaid v))).

(** The receipt line of a debt item. *)
Definition lineOf (v : validItem) : line :=
  MkLine (vQty v) (capitalize (vKey v)) (itemTotalOf v).

(** The customer name the debt branch records. *)
Definition debtor (parsed : parsedMsg) : string :=
  trim (match customer parsed with
        | Some (String c s) => String c s
        | _ => "Unknown"%string
        end).

(** The Sales rows the debt branch writes for a request. *)
Definition debtSales (now : Clock) (parsed : parsedMsg) : list SaleRow :=
  let vs := omap validOf (itemsOf parsed) in
  let totalItemPrice := inferTotalFromItems (Some (itemsOf parsed)) in
  if PrimFloat.ltb totalItemPrice (totalPaidOf parsed) then []
  else flat_map (itemSales now (debtor parsed) totalItemPrice (totalPaidOf parsed)) vs.




(** The total owed the debt branch reports. *)
Definition owedTotal (totalItemPrice totalPaid : float) (vs : list validItem) : float :=
  fold_left (fun o v => (o + itemOwedOf totalItemPrice totalPaid v)%float) vs 0%float.

(** ** Settlement, row by row

    The settle loop read as a function of the rows. *)

(** The test of the loop body: the row is a pending debt of the customer and
    fits under the cap, given the total settled so far. *)
Definition settles (who : string) (amount : option float) (settled : float) (r : DebtRow) : bool :=
  pendingFor who r && capOK amount settled (cellNum (dOwed r)).

(** The running total after the rows [rows] have been visited in order. *)
Definition runningSettled (who : string) (amount : option float) (rows : list DebtRow) : float :=
  fold_left (fun settled r =>
               if settles who amount settled r then (settled + cellNum (dOwed r))%float else settled)
            rows 0%float.

(** The running total after [rows], starting from [settled]. *)
Definition settledTotal (who : string) (amount : option float) (settled : float)
    (rows : list DebtRow) : float :=
  fold_left (fun settled r =>
               if settles who amount settled r then (settled + cellNum (dOwed r))%float else settled)
            rows settled.

(** The rows as the loop leaves them, starting from a running total. *)
Fixpoint settledRows (who : string) (amount : option float) (on : string)
    (settled : float) (rows : list DebtRow) : list DebtRow :=
  match rows with
  | [] => []
  | r :: rows' =>
      if settles who amount settled r
      then markSettled on r :: settledRows who amount on (settled + cellNum (dOwed r))%float rows'
      else r :: settledRows who amount on settled rows'
  end.


(** ** The statements under test

    The claims on balances and allocations, as predicates on rows and
    requests. *)





(** ** Checks over ranges of cent amounts

    Binary64 arithmetic on whole-cent amounts is settled by evaluation: a
    boolean check is run on every integer of a range. *)








(** ** Words in a text

    What it means for a text to contain a word, and the reading of the
    word patterns it is compared with. *)

(** The character before the position reached after reading [pre], starting
    after [p]. *)
Fixpoint lastOr (p : option ascii) (pre : string) : option ascii :=
  match pre with
  | EmptyString => p
  | String c pre' => lastOr (Some c) pre'
  end.

(** [occ] spells the word [w], ignoring ASCII case. *)
Fixpoint sameWord (w occ : string) : bool :=
  match w, occ with
  | EmptyString, EmptyString => true
  | String a w', String b occ' => ciEq a b && sameWord w' occ'
  | _, _ => false
  end.

(** The text contains the word [w]: an occurrence of [w], in any case, that
    is neither preceded nor followed by a word character. *)
Definition containsWord (w text : string) : Prop :=
  exists pre occ post,
    text = (pre ++ occ ++ post)%string /\
    sameWord w occ = true /\
    isWordOpt (lastOr None pre) = false /\
    isWordOpt (nextChar post) = false.

(** Reading the word [w] at the start of [s], after the character [p]. *)
Fixpoint readWord (w : string) (p : option ascii) (s : string) : option (option ascii * string) :=
  match w with
  | EmptyString => Some (p, s)
  | String a w' =>
      match s with
      | String b s' => if ciEq a b then readWord w' (Some b) s' else None
      | EmptyString => None
      end
  end.

(** The word [w] stands at the start of [s], between two word boundaries. *)
Definition wordAt (w : string) (p : option ascii) (s : string) : bool :=
  atBoundary (MState p s []) &&
  match readWord w p s with
  | Some (p', s') => atBoundary (MState p' s' [])
  | None => false
  end.

(** The word is made of word characters. *)
Fixpoint allWord (w : string) : bool :=
  match w with
  | EmptyString => true
  | String a w' => isWord a && allWord w'
  end.

(** [f] holds on both booleans. *)
Definition forBoth (f : bool -> bool) : bool := f true && f false.

(** [f] holds on every character. *)
Definition allAscii (f : ascii -> bool) : bool :=
  forBoth (fun b0 => forBoth (fun b1 => forBoth (fun b2 => forBoth (fun b3 =>
  forBoth (fun b4 => forBoth (fun b5 => forBoth (fun b6 => forBoth (fun b7 =>
    f (Ascii b0 b1 b2 b3 b4 b5 b6 b7))))))))).

(** The pattern [\bWORD\b]. *)
Definition wordPattern (w : string) : regex := seqs [WordB; lit w; WordB].

(** ** Inputs of the examples

    Two clock readings five seconds apart, an empty ledger, and the ledger
    of the settlement example. *)

Definition noon : Clock := MkClock "2026-03-01" "12:00:00" "3/1/2026, 12:00:00 PM".

Definition later : Clock := MkClock "2026-03-01" "12:00:05" "3/1/2026, 12:00:05 PM".

Definition emptyWorld : World := MkWorld (MkStore [] [] []) [].

(** A pending debt of [owed] for one latte. *)
Definition owes (who : string) (owed : float) : DebtRow :=
  MkDebt "2026-02-27" who "Latte" 25 (25 - owed) owed "Pending" "".

(** The specification's example: Ahmed owes 10, 8 and 6, in that order,
    and the ledger holds nothing else. *)
Definition threeDebts : World :=
  MkWorld (MkStore [] [owes "Ahmed" 10; owes "Ahmed" 8; owes "Ahmed" 6] []) [].


(** ** What the handlers leave behind

    Rows, answers and snapshots the further properties are stated with. *)

(** The Debts row the debt branch writes beside a Sales row: one for every
    row that still owes something. *)
Definition debtOfSale (r : SaleRow) : option DebtRow :=
  if PrimFloat.ltb 0 (amountOwed r)
  then Some (MkDebt (sDate r) (customerOrNote r) (sItem r) (unitPrice r) (amountPaid r)
                    (amountOwed r) "Pending" "")
  else None.



(** The totals of a column, from a running total on. *)
Definition sumFrom {A} (f : A -> float) (rows : list A) (s0 : float) : float :=
  fold_left (fun s r => (s + cellNum (f r))%float) rows s0.

(** ** Grouping by customer

    What [/debts] builds, row by row. *)

(** The pending rows listed under a name by [/debts]. *)
Definition rowsOf (name : string) (pending : list DebtRow) : list DebtRow :=
  filter (fun r => customerName r = name) pending.

(** The lines and the total of a list of rows. *)
Definition infoOf (rows : list DebtRow) : debtInfo :=
  MkInfo (map (fun r => (dItem r, dOwed r)) rows) (sumOf dOwed rows).

(** [obj] groups the rows [done] by customer: one property per name, holding
    the rows of that name in order. *)
Definition grouped (obj : list (string * debtInfo)) (done : list DebtRow) : Prop :=
  NoDup (map fst obj) /\
  (forall n, n ∈ map fst obj <-> exists r, r ∈ done /\ customerName r = n) /\
  (forall n info, (n, info) ∈ obj -> info = infoOf (rowsOf n done)).

(** The customer names of the rows, each once, in order of first
    appearance. *)
Definition firstNames (rows : list DebtRow) : list string :=
  fold_left (fun seen r => if bool_decide (customerName r ∈ seen) then seen
                           else seen ++ [customerName r]) rows [].

(** The order of two array-index names. *)
Definition indexLe (a b : string) : Prop :=
  default 0 (arrayIndex a) <= default 0 (arrayIndex b).

(** ** Texts made of words

    Words, gaps and blank texts, for the arguments of the commands. *)

(** Every character of [s] satisfies [p]. *)
Fixpoint allChars (p : ascii -> bool) (s : string) : bool :=
  match s with
  | EmptyString => true
  | String c s' => p c && allChars p s'
  end.

(** The character is not the space that [split(' ')] cuts at. *)
Definition notBlank (c : ascii) : bool := negb (Ascii.eqb c " ").

(** The text is empty or starts with a character that is not white space. *)
Definition tidyStart (s : string) : Prop :=
  match s with
  | EmptyString => True
  | String c _ => isSpace c = false
  end.

(** A text made of white space only. *)
Definition blank (s : string) : Prop := allChars isSpace s = true.

(** A word: a non-empty text without white space. *)
Definition wordy (w : string) : Prop :=
  w <> ""%string /\ allChars (fun c => negb (isSpace c)) w = true.

(** A gap and the word that follows it. *)
Definition gapThenWord (gw : string * string) : Prop :=
  fst gw <> ""%string /\ blank (fst gw) /\ wordy (snd gw).

(** The text [gap ++ word ++ gap ++ word ...] of a list of gaps and
    words. *)
Fixpoint spaced (gws : list (string * string)) : string :=
  match gws with
  | [] => ""
  | (g, w) :: gws' => g ++ w ++ spaced gws'
  end.

(** ** What a pattern derives

    The texts a pattern can match, apart from the matcher that looks for
    them. *)

(** What a pattern matches, and the groups it captures: [derives r s cs]
    when [r] can match the text [s], capturing [cs]. Word boundaries are
    left to the matcher. *)
Inductive derives : regex -> string -> list string -> Prop :=
| DEps : derives Eps "" []
| DChr (c a : ascii) : ciEq c a = true -> derives (Chr c) (String a "") []
| DCls (p : ascii -> bool) (a : ascii) : p a = true -> derives (Cls p) (String a "") []
| DSeq (r1 r2 : regex) (s1 s2 : string) (c1 c2 : list string) :
    derives r1 s1 c1 -> derives r2 s2 c2 -> derives (Seq r1 r2) (s1 ++ s2) (c1 ++ c2)
| DAltL (r1 r2 : regex) (s : string) (c : list string) :
    derives r1 s c -> derives (Alt r1 r2) s c
| DAltR (r1 r2 : regex) (s : string) (c : list string) :
    derives r2 s c -> derives (Alt r1 r2) s c
| DOptSome (r : regex) (s : string) (c : list string) :
    derives r s c -> derives (Opt r) s c
| DOptNone (r : regex) : derives (Opt r) "" []
| DStarNil (r : regex) : derives (Star r) "" []
| DStarCons (r : regex) (s1 s2 : string) (c1 c2 : list string) :
    derives r s1 c1 -> derives (Star r) s2 c2 -> derives (Star r) (s1 ++ s2) (c1 ++ c2)
| DWordB : derives WordB "" []
| DGroup (r : regex) (s : string) (c : list string) :
    derives r s c -> derives (Group r) s (c ++ [s]).

(** A pattern without groups. *)
Fixpoint groupless (r : regex) : bool :=
  match r with
  | Eps | Chr _ | Cls _ | WordB => true
  | Seq r1 r2 | Alt r1 r2 => groupless r1 && groupless r2
  | Opt r1 | Star r1 => groupless r1
  | Group _ => false
  end.

(** An ASCII letter, and a character of a customer name. *)
Definition isLetter (c : ascii) : bool := inRange 97 122 c || inRange 65 90 c.

Definition isNameChar (c : ascii) : bool :=
  inRange 97 122 c || inRange 65 90 c || isDigit c
  || Ascii.eqb c "'" || Ascii.eqb c "_" || Ascii.eqb c "-".

(** A decimal numeral: digits, optionally followed by a point and digits. *)
Definition numeral (s : string) : Prop :=
  exists ip fp,
    ip <> ""%string /\ allChars isDigit ip = true /\ allChars isDigit fp = true /\
    (s = ip \/ (fp <> ""%string /\ s = (ip ++ "." ++ fp)%string)).

(** The pattern [r] matches somewhere in [text], capturing [cs]. *)
Definition within (text : string) (r : regex) (cs : list string) : Prop :=
  exists before matched after,
    text = (before ++ matched ++ after)%string /\ derives r matched cs.

(** * Properties *)

(** ** The built-ins on examples *)

Example Math_round_examples :
  Math_round 2.5 = 3%float /\ Math_round (-2.5) = (-2)%float /\
  Math_round 0.49999999999999994 = 0%float /\ Math_round (-0.2) = (-0)%float /\
  round2 1.005 = 1%float /\ round2 16.666666666666668 = cents 1667.
Proof. vm_compute. repeat split; reflexivity. Qed.

Example parseFloat_examples :
  parseFloat "15" = 15%float /\ parseFloat "  12.5 AED" = 12.5%float /\
  parseFloat "0.01" = 0.01%float /\ parseFloat ".5e1x" = 5%float /\
  PrimFloat.is_nan (parseFloat "Ahmed") = true.
Proof. vm_compute. repeat split; reflexivity. Qed.

Example heuristics_examples :
  extractPaidAmount "Ahmed got a latte, paid 15" = Some 15%float /\
  extractPaidAmount "Sara took a coco matcha, paid nothing" = Some 0%float /\
  extractPaidAmount "12.5 dhs paid by Omar" = Some 12.5%float /\
  extractPaidAmount "sold 2 lattes" = None /\
  inferCustomerFromText "one espresso for Abu-Ali, unpaid" = Some "Abu-Ali"%string /\
  hasLatteWord "sold 2 lattes" = false /\
  capitalize "espresso/americano" = "Espresso/Americano"%string.
Proof. vm_compute. repeat split; reflexivity. Qed.

(** The running example of the help text: a latte with 15 paid. *)
Example latte_paid_15 :
  let parsed := Parsed "debt" (Some [Item (Some "latte") (Some 1)]) (Some "Ahmed") (JNum 15) in
  snd (onText noon "Ahmed got a latte, paid 15" (Some parsed) emptyWorld)
  = MkWorld
      (MkStore
         [MkSale "2026-03-01" "12:00:00" "Latte" "Coffee" 25 15 10 "Ahmed"]
         [MkDebt "2026-03-01" "Ahmed" "Latte" 25 15 10 "Pending" ""]
         [ ("Metric", VText "Value"); ("Last Updated", VText "3/1/2026, 12:00:00 PM");
           ("--- TODAY ---", VText ""); ("Today's Revenue", VAed 25);
           ("Today's Collected", VAed 15); ("--- ALL TIME ---", VText "");
           ("Total Revenue", VAed 25); ("Total Collected", VAed 15);
           ("Total Transactions", VCount 1); ("--- DEBTS ---", VText "");
           ("Unsettled Debts", VAed 10); ("Settled Debts", VAed 0) ]%string)
      [RDebtRecorded [MkLine 1 "Latte" 25] 25 15 (Some 10%float) "Ahmed"].
Proof. vm_compute. reflexivity. Qed.

(** ** How the loops run

    Each loop of the handlers is characterized by the rows and replies it
    adds; the properties below are read off these equations. *)

Lemma world_eta (w : World) : MkWorld (store w) (outbox w) = w.
Proof. now destruct w. Qed.

Lemma bind_run {A B} (m : M A) (f : A -> M B) (w : World) :
  bind m f w = f (fst (m w)) (snd (m w)).
Proof. unfold bind. now destruct (m w). Qed.

Lemma store_eta (s : Store) : MkStore (sales s) (debts s) (summary s) = s.
Proof. now destruct s. Qed.

Lemma resolveItems_from (its : list item) (t : float) (vs : list validItem) (w : World) :
  forEach its (t, vs)
    (fun '(totalItemPrice, validItems) it =>
       let key := itemKey it in
       match MENU !! key with
       | None => ctxReply (RItemNotFound (name it)) >> ret (totalItemPrice, validItems)
       | Some m =>
           let qty := quantity it in
           ret ((totalItemPrice + price m * Z2f qty)%float, validItems ++ [Valid key m qty])
       end) w
  = ((fold_left addPrice its t, vs ++ omap validOf its),
     MkWorld (store w) (outbox w ++ flat_map warningOf its)).
Proof.
  revert t vs w. induction its as [|it its IH]; intros t vs w; simpl.
  - unfold ret. now rewrite !app_nil_r, world_eta.
  - unfold bind at 1. unfold validOf at 1, warningOf at 1, addPrice at 2.
    destruct (MENU !! itemKey it) as [m|] eqn:E; simpl.
    + unfold ret at 1. rewrite IH. simpl. now rewrite <- app_assoc.
    + unfold bind, ctxReply, ret at 1. rewrite IH. simpl. now rewrite <- app_assoc.
Qed.

Lemma resolveItems_run (its : list item) (w : World) :
  resolveItems its w
  = ((inferTotalFromItems (Some its), omap validOf its),
     MkWorld (store w) (outbox w ++ flat_map warningOf its)).
Proof. unfold resolveItems. now rewrite resolveItems_from. Qed.



(** ** The overpayment guard *)


Lemma float_neq (x y : float) : PrimFloat.Leibniz.eqb x y = false -> x <> y.
Proof.
  intros H E. apply FloatAxioms.Leibniz.eqb_spec in E. congruence.
Qed.


(** ** The intent resolver *)


(** The example of the specification: a [sale] parse of one espresso (20 AED)
    with [paid = 15] is recorded as a debt of 5. *)
Example reclassified_sale_is_recorded_as_debt :
  let parsed := Parsed "sale" (Some [Item (Some "espresso") (Some 1)]) (Some "Ahmed") (JNum 15) in
  intent (resolveIntent "Ahmed got an espresso, paid 15" parsed) = "debt"%string /\
  debts (store (snd (onText noon "Ahmed got an espresso, paid 15" (Some parsed) emptyWorld)))
  = [MkDebt "2026-03-01" "Ahmed" "Espresso" 20 15 5 "Pending" ""].
Proof. vm_compute. split; reflexivity. Qed.

(** ** Zero-payment phrasing *)

(** C6, as stated, fails: the paid amount guessed by the language model takes
    precedence over the text, so "paid nothing" does not override it. *)
Lemma C6_counterexample :
  ~ (forall text parsed, zeroPaymentPhrase text = true ->
       explicitPaid text parsed = Some 0%float).
Proof.
  intros H.
  specialize (H "Sara took a coco matcha, paid nothing"%string
                (Parsed "debt" (Some [Item (Some "coco matcha") (Some 1)]) (Some "Sara") (JNum 25))).
  assert (Hz : zeroPaymentPhrase "Sara took a coco matcha, paid nothing" = true)
    by (vm_compute; reflexivity).
  specialize (H Hz). vm_compute in H.
  apply (f_equal (default 0%float)) in H. cbn in H.
  revert H. apply float_neq. vm_compute. reflexivity.
Qed.

(** C6, amended. For a text with a "paid nothing" or "no payment" phrasing
    the text heuristic yields exactly 0, and this is the resolved paid
    amount whenever the language model gave no finite numeric [paid]; a
    numeric [paid] from the language model is kept as it is. *)
Theorem C6_zero_payment_phrase (text : string) (parsed : parsedMsg) :
  zeroPaymentPhrase text = true ->
  extractPaidAmount text = Some 0%float /\
  (parseNumberOrNull (paid parsed) = None ->
     explicitPaid text parsed = Some 0%float /\
     paid (resolveIntent text parsed) = JNum 0) /\
  (forall p, parseNumberOrNull (paid parsed) = Some p ->
     explicitPaid text parsed = Some p /\
     paid (resolveIntent text parsed) = JNum p).
Proof.
  intros Hz.
  assert (He : extractPaidAmount text = Some 0%float).
  { unfold extractPaidAmount. now rewrite Hz. }
  split; [exact He|]. split.
  - intros Hn. unfold resolveIntent. cbn [paid]. unfold explicitPaid.
    rewrite Hn, He. split; reflexivity.
  - intros p Hp. unfold resolveIntent. cbn [paid]. unfold explicitPaid.
    rewrite Hp. split; reflexivity.
Qed.

(** C6 (amended) at work: "no payment" with no [paid] from the language
    model resolves to 0. *)
Lemma C6_zero_payment_phrase_witness :
  explicitPaid "Sara took a coco matcha, no payment yet"
    (Parsed "debt" (Some [Item (Some "coco matcha") (Some 1)]) (Some "Sara") JNull)
  = Some 0%float.
Proof.
  refine (proj1 (proj1 (proj2 (C6_zero_payment_phrase _ _ _)) _)).
  - vm_compute. reflexivity.
  - vm_compute. reflexivity.
Defined.

(** ** Settlement *)

Lemma alter_middle {A} (f : A -> A) (pre : list A) (x : A) (post : list A) :
  alter f (length pre) (pre ++ x :: post) = pre ++ f x :: post.
Proof. induction pre as [|y pre IH]; simpl; [reflexivity | f_equal; exact IH]. Qed.

Lemma settleLoop_run (who : string) (amount : option float) (now : Clock)
    (data pre : list DebtRow) (settled : float) (w : World) :
  debts (store w) = pre ++ data ->
  settleLoop who amount now (length pre) data settled w
  = (settledTotal who amount settled data,
     MkWorld (MkStore (sales (store w))
                      (pre ++ settledRows who amount (today now) settled data)
                      (summary (store w)))
             (outbox w)).
Proof.
  revert pre settled w. induction data as [|r data IH]; intros pre settled w Hd.
  - simpl. unfold ret. rewrite <- Hd, store_eta, world_eta. reflexivity.
  - cbn [settleLoop settledRows settledTotal fold_left]. unfold settles.
    destruct (pendingFor who r); cbn [andb].
    + destruct (capOK amount settled (cellNum (dOwed r))).
      * rewrite bind_run. unfold settleCell. rewrite bind_run.
        cbn [getStore putStore fst snd store outbox sales debts summary].
        rewrite Hd, alter_middle.
        replace (S (length pre)) with (length (pre ++ [markSettled (today now) r]))
          by (rewrite length_app; simpl; lia).
        rewrite IH by (cbn; now rewrite <- app_assoc).
        cbn. now rewrite <- app_assoc.
      * replace (S (length pre)) with (length (pre ++ [r])) by (rewrite length_app; simpl; lia).
        rewrite IH by (now rewrite <- app_assoc). now rewrite <- app_assoc.
    + replace (S (length pre)) with (length (pre ++ [r])) by (rewrite length_app; simpl; lia).
      rewrite IH by (now rewrite <- app_assoc). now rewrite <- app_assoc.
Qed.

Lemma settledRows_app (who : string) (amount : option float) (on : string)
    (settled : float) (pre post : list DebtRow) :
  settledRows who amount on settled (pre ++ post)
  = settledRows who amount on settled pre
    ++ settledRows who amount on (settledTotal who amount settled pre) post.
Proof.
  revert settled. induction pre as [|r pre IH]; intros settled; [reflexivity|].
  cbn [app settledRows settledTotal fold_left].
  destruct (settles who amount settled r); cbn; now rewrite IH.
Qed.

Lemma settledRows_length (who : string) (amount : option float) (on : string)
    (settled : float) (rows : list DebtRow) :
  length (settledRows who amount on settled rows) = length rows.
Proof.
  revert settled. induction rows as [|r rows IH]; intros settled; [reflexivity|].
  cbn [settledRows]. destruct (settles who amount settled r); cbn; now rewrite IH.
Qed.

(** What [settleFor] does to the world. *)
Lemma settleFor_run (who : string) (amount : option float) (now : Clock) (w : World) :
  let total := runningSettled who amount (debts (store w)) in
  let rows := settledRows who amount (today now) 0 (debts (store w)) in
  let s' := MkStore (sales (store w)) rows (summary (store w)) in
  settleFor who amount now w
  = (tt, MkWorld (MkStore (sales (store w)) rows (summaryRows now s'))
                 (outbox w ++ [if PrimFloat.eqb total 0 then RNoPending who
                               else RSettled (round2 total) who])).
Proof.
  intros total rows s'. unfold settleFor.
  rewrite bind_run. cbn [getStore fst snd]. rewrite bind_run.
  pose proof (settleLoop_run who amount now (debts (store w)) [] 0 w eq_refl) as Hrun.
  cbn [length] in Hrun. rewrite Hrun. clear Hrun.
  cbn [fst snd app]. rewrite bind_run. unfold updateSummary. rewrite bind_run.
  cbn [getStore putStore fst snd store outbox sales debts summary].
  fold total rows. unfold settledTotal. fold (runningSettled who amount (debts (store w))).
  fold total. destruct (PrimFloat.eqb total 0); reflexivity.
Qed.

(** The row at a position, after [settleFor]. *)
Lemma settleFor_position (who : string) (amount : option float) (now : Clock) (w : World)
    (pre : list DebtRow) (r : DebtRow) (post : list DebtRow) :
  debts (store w) = pre ++ r :: post ->
  debts (store (snd (settleFor who amount now w))) !! length pre
  = Some (if pendingFor who r
             && capOK amount (runningSettled who amount pre) (cellNum (dOwed r))
          then markSettled (today now) r else r).
Proof.
  intros Hd. rewrite settleFor_run. cbn [snd store debts]. rewrite Hd, settledRows_app.
  rewrite lookup_app_r by (rewrite settledRows_length; lia).
  rewrite settledRows_length, Nat.sub_diag.
  cbn [settledRows]. unfold settles, runningSettled, settledTotal.
  destruct (pendingFor who r && capOK amount _ (cellNum (dOwed r))); reflexivity.
Qed.

(** C4. Settlement visits the rows of the Debts sheet in stored order: the
    row at any position is marked settled exactly when it is a pending row
    of the customer (names compared ignoring case) and either no cap was
    given or the total settled over the rows before it plus its owed amount
    is at most the cap plus 0.01; the handler reports the total that results.
    With pending debts of 10, 8 and 6 and a cap of 14, through the command
    as well as through a parsed message, only the row of 10 is settled and
    the total is 10. *)
Theorem C4_settlement_in_stored_order :
  (forall who amount now w pre r post,
     debts (store w) = pre ++ r :: post ->
     let w' := snd (settleFor who amount now w) in
     debts (store w') !! length pre
     = Some (if pendingFor who r
                && capOK amount (runningSettled who amount pre) (cellNum (dOwed r))
             then markSettled (today now) r else r)) /\
  (forall who amount now w,
     last (outbox (snd (settleFor who amount now w)))
     = Some (let total := runningSettled who amount (debts (store w)) in
             if PrimFloat.eqb total 0 then RNoPending who else RSettled (round2 total) who)) /\
  (forall amount settled rowOwed,
     capOK amount settled rowOwed = true <->
     amount = None \/
     exists cap, amount = Some cap /\ PrimFloat.leb (settled + rowOwed) (cap + 0.01) = true) /\
  (forall who r,
     pendingFor who r = true <->
     toLowerCase (dCustomer r) = toLowerCase who /\ dStatus r = "Pending"%string) /\
  (runningSettled "AHMED" (Some 14%float) (debts (store threeDebts)) = 10%float /\
   map dStatus (debts (store (snd (settleCommand noon "/settle AHMED 14" threeDebts))))
   = ["Settled"; "Pending"; "Pending"]%string /\
   outbox (snd (settleCommand noon "/settle AHMED 14" threeDebts)) = [RSettled 10 "AHMED"] /\
   let parsed := Parsed "settle" None (Some "ahmed") (JNum 14) in
   map dStatus (debts (store (snd (onText noon "ahmed settles 14" (Some parsed) threeDebts))))
   = ["Settled"; "Pending"; "Pending"]%string /\
   outbox (snd (onText noon "ahmed settles 14" (Some parsed) threeDebts)) = [RSettled 10 "ahmed"]).
Proof.
  split; [|split; [|split; [|split]]].
  - intros who amount now w pre r post Hd w'. subst w'.
    exact (settleFor_position who amount now w pre r post Hd).
  - intros who amount now w. rewrite settleFor_run. cbn [snd outbox].
    now rewrite last_snoc.
  - intros amount settled rowOwed. destruct amount as [cap|]; cbn.
    + split; [intros H; right; now exists cap|].
      intros [H|(c & Hc & H)]; [discriminate|]. now injection Hc as ->.
    + split; [now left | reflexivity].
  - intros who r. unfold pendingFor. rewrite andb_true_iff, !String.eqb_eq. reflexivity.
  - vm_compute. repeat split; reflexivity.
Qed.

(** ** Checking a property over a range of cent amounts *)




(** ** A cap of zero *)




Lemma uncapped_rows (who : string) (on : string) (rows : list DebtRow) (settled : float) :
  settledRows who None on settled rows
  = map (fun r => if pendingFor who r then markSettled on r else r) rows.
Proof.
  revert settled. induction rows as [|r rows IH]; intros settled; [reflexivity|].
  cbn [settledRows map]. unfold settles. cbn [capOK]. rewrite andb_true_r.
  destruct (pendingFor who r); now rewrite IH.
Qed.




(** ** The summary *)

(** C9, as stated, fails: the snapshot carries the clock reading of its
    call, so two calls a few seconds apart differ with no write between
    them. *)
Lemma C9_counterexample :
  ~ (forall (first second : Clock) (w : World),
       let w1 := snd (updateSummary first w) in
       let w2 := snd (updateSummary second w1) in
       summary (store w2) = summary (store w1)).
Proof.
  intros H. specialize (H noon later emptyWorld). cbv in H. discriminate H.
Qed.

(** C9, amended. [updateSummary] reads Sales and Debts and rewrites only the
    Summary sheet, from the rows alone: called twice with no write between
    the calls it yields the same snapshot if both calls see the same clock
    reading; if they fall on the same date, the snapshots differ at most in
    the "Last Updated" row. *)
Theorem C9_summary_recomputed :
  (forall now w, updateSummary now (snd (updateSummary now w)) = updateSummary now w) /\
  (forall first second w,
     let w1 := snd (updateSummary first w) in
     let w2 := snd (updateSummary second w1) in
     sales (store w2) = sales (store w) /\
     debts (store w2) = debts (store w) /\
     summary (store w2) = summaryRows second (store w) /\
     (today first = today second ->
      forall i, i <> 1%nat -> summary (store w2) !! i = summary (store w1) !! i) /\
     (today first = today second -> stamp first = stamp second ->
      summary (store w2) = summary (store w1))).
Proof.
  split.
  - intros now w. reflexivity.
  - intros first second w w1 w2. subst w1 w2.
    unfold updateSummary. rewrite !bind_run.
    cbn [getStore putStore fst snd store outbox sales debts summary].
    refine (conj eq_refl (conj eq_refl (conj eq_refl (conj _ _)))).
    + intros Hday i Hi. unfold summaryRows. cbn [sales debts]. rewrite Hday.
      destruct i as [|[|i]]; [reflexivity | congruence | reflexivity].
    + intros Hday Hstamp. unfold summaryRows. cbn [sales debts].
      now rewrite Hday, Hstamp.
Qed.

(** ** The rows the recorder writes *)

Lemma appended_nil (w : World) : appended [] [] w = w.
Proof. unfold appended. now rewrite !app_nil_r, store_eta, world_eta. Qed.

Lemma appended_appended (ss1 ss2 : list SaleRow) (ds1 ds2 : list DebtRow) (w : World) :
  appended ss2 ds2 (appended ss1 ds1 w) = appended (ss1 ++ ss2) (ds1 ++ ds2) w.
Proof. unfold appended. cbn. now rewrite !app_assoc. Qed.

Lemma times_appends (n : nat) (body : M unit) (ss : list SaleRow) (ds : list DebtRow) :
  (forall w, body w = (tt, appended ss ds w)) ->
  forall w, times n body w = (tt, appended (concat (replicate n ss)) (concat (replicate n ds)) w).
Proof.
  intros Hbody. induction n as [|n IH]; intros w; cbn [times replicate concat].
  - unfold ret. now rewrite appended_nil.
  - rewrite bind_run, Hbody. cbn [fst snd]. now rewrite IH, appended_appended.
Qed.

Lemma concat_replicate_singleton {A} (n : nat) (x : A) :
  concat (replicate n [x]) = replicate n x.
Proof. induction n as [|n IH]; cbn; [reflexivity | now rewrite IH]. Qed.


Lemma recordUnit_run (now : Clock) (who : string) (v : validItem) (itemPaid : float) (w : World) :
  recordUnit now who v itemPaid w
  = (tt, appended [unitSale now who v itemPaid] (unitDebt now who v itemPaid) w).
Proof.
  unfold recordUnit, unitDebt, unitSale, appended. rewrite bind_run.
  unfold appendSale at 1. rewrite bind_run.
  cbn [getStore putStore fst snd store outbox sales debts summary].
  destruct (PrimFloat.ltb 0 (round2 (price (vItem v) - unitPaidOf itemPaid (vQty v)))).
  - unfold appendDebt. rewrite bind_run. reflexivity.
  - unfold ret. now rewrite app_nil_r.
Qed.

Lemma allocate_from (now : Clock) (who : string) (totalItemPrice totalPaid : float)
    (vs : list validItem) (lines : list line) (owed : float) (w : World) :
  forEach vs (lines, owed)
    (fun '(lines, totalOwed) v =>
       let itemTotal := itemTotalOf v in
       let itemPaid := itemPaidOf totalItemPrice totalPaid v in
       let itemOwed := itemOwedOf totalItemPrice totalPaid v in
       times (Z.to_nat (vQty v)) (recordUnit now who v itemPaid) >>
       ret (lines ++ [MkLine (vQty v) (capitalize (vKey v)) itemTotal], (totalOwed + itemOwed)%float)) w
  = ((lines ++ map lineOf vs,
      fold_left (fun o v => (o + itemOwedOf totalItemPrice totalPaid v)%float) vs owed),
     appended (flat_map (itemSales now who totalItemPrice totalPaid) vs)
              (flat_map (itemDebts now who totalItemPrice totalPaid) vs) w).
Proof.
  revert lines owed w. induction vs as [|v vs IH]; intros lines owed w.
  - cbn. unfold ret. now rewrite app_nil_r, appended_nil.
  - cbn [forEach]. rewrite bind_run. cbv zeta. rewrite bind_run.
    rewrite (times_appends _ _ _ _ (recordUnit_run now who v _)).
    cbn [fst snd ret]. rewrite IH, appended_appended, concat_replicate_singleton.
    cbn [map flat_map fold_left]. unfold lineOf at 2. now rewrite <- app_assoc.
Qed.

Lemma allocate_run (now : Clock) (who : string) (totalItemPrice totalPaid : float)
    (vs : list validItem) (w : World) :
  allocate now who totalItemPrice totalPaid vs w
  = ((map lineOf vs,
      fold_left (fun o v => (o + itemOwedOf totalItemPrice totalPaid v)%float) vs 0%float),
     appended (flat_map (itemSales now who totalItemPrice totalPaid) vs)
              (flat_map (itemDebts now who totalItemPrice totalPaid) vs) w).
Proof. unfold allocate. now rewrite allocate_from. Qed.

Lemma recordDebt_sales (now : Clock) (parsed : parsedMsg) (w : World) :
  sales (store (snd (recordDebt now parsed w))) = sales (store w) ++ debtSales now parsed.
Proof.
  unfold recordDebt, debtSales. fold (debtor parsed).
  destruct (itemsOf parsed) as [|it0 its0] eqn:Hits.
  - cbn. destruct (PrimFloat.ltb _ _); now rewrite app_nil_r.
  - rewrite <- Hits. rewrite bind_run, resolveItems_run. cbn [fst snd].
    destruct (omap validOf (itemsOf parsed)) as [|v vs] eqn:Hv.
    + cbn. destruct (PrimFloat.ltb _ _); now rewrite app_nil_r.
    + destruct (PrimFloat.ltb _ _).
      * cbn. now rewrite app_nil_r.
      * rewrite bind_run, allocate_run. cbn [fst snd]. rewrite bind_run.
        unfold updateSummary. rewrite bind_run. reflexivity.
Qed.







(** ** The balance of a row *)





(** ** Proportional allocation *)








(** ** The per-unit split *)







(** ** Words in the raw text *)

Lemma forBoth_spec (f : bool -> bool) : forBoth f = true -> forall b, f b = true.
Proof.
  unfold forBoth. intros H b. apply andb_true_iff in H. destruct H, b; assumption.
Qed.

Lemma allAscii_spec (f : ascii -> bool) : allAscii f = true -> forall a, f a = true.
Proof.
  unfold allAscii. intros H [b0 b1 b2 b3 b4 b5 b6 b7].
  repeat (match goal with
          | H : forBoth ?g = true |- _ =>
              let H' := fresh in
              pose proof (forBoth_spec g H) as H'; clear H; cbv beta in H'
          end).
  match goal with H : forall b, _ = true |- _ => rename H into H0 end.
  revert b0 b1 b2 b3 b4 b5 b6 b7. 
  intros b0. pose proof (forBoth_spec _ (H0 b0)) as H1.
  intros b1. pose proof (forBoth_spec _ (H1 b1)) as H2.
  intros b2. pose proof (forBoth_spec _ (H2 b2)) as H3.
  intros b3. pose proof (forBoth_spec _ (H3 b3)) as H4.
  intros b4. pose proof (forBoth_spec _ (H4 b4)) as H5.
  intros b5. pose proof (forBoth_spec _ (H5 b5)) as H6.
  intros b6. pose proof (forBoth_spec _ (H6 b6)) as H7.
  intros b7. exact (H7 b7).
Qed.

(** A character that matches a word character is a word character. *)
Lemma ciEq_isWord (a b : ascii) : ciEq a b = true -> isWord a = true -> isWord b = true.
Proof.
  assert (H : allAscii (fun a => allAscii (fun b => implb (ciEq a b && isWord a) (isWord b))) = true)
    by (vm_compute; reflexivity).
  pose proof (allAscii_spec _ (allAscii_spec _ H a) b) as Hab. cbv beta in Hab.
  intros H1 H2. now rewrite H1, H2 in Hab.
Qed.

Lemma append_nil_l (s : string) : ("" ++ s)%string = s.
Proof. reflexivity. Qed.

Lemma append_cons (c : ascii) (s t : string) : (String c s ++ t)%string = String c (s ++ t)%string.
Proof. reflexivity. Qed.

Lemma run_lit (w : string) (p : option ascii) (s : string) (cs : list string)
    (k : mstate -> option mstate) :
  run (lit w) (MState p s cs) k
  = match readWord w p s with
    | Some (p', s') => k (MState p' s' cs)
    | None => None
    end.
Proof.
  revert p s. induction w as [|a w IH]; intros p s; [reflexivity|].
  destruct w as [|a' w'].
  - cbn. unfold step. cbn. destruct s as [|b s']; [reflexivity|]. now destruct (ciEq a b).
  - change (lit (String a (String a' w'))) with (Seq (Chr a) (lit (String a' w'))).
    cbn [run]. unfold step. cbn [rest caps readWord].
    destruct s as [|b s']; [reflexivity|]. destruct (ciEq a b); [apply IH | reflexivity].
Qed.

Lemma run_wordPattern (w : string) (p : option ascii) (s : string) :
  run (wordPattern w) (MState p s []) Some <> None <-> wordAt w p s = true.
Proof.
  unfold wordPattern, wordAt. cbn [seqs run].
  destruct (atBoundary (MState p s [])); cbn [andb]; [|split; congruence].
  rewrite run_lit. destruct (readWord w p s) as [[p' s']|]; [|split; congruence].
  destruct (atBoundary (MState p' s' [])); split; congruence.
Qed.

Lemma search_wordPattern (w : string) (p : option ascii) (s : string) :
  searchFrom (wordPattern w) p s <> None <->
  exists pre post, s = (pre ++ post)%string /\ wordAt w (lastOr p pre) post = true.
Proof.
  revert p. induction s as [|c s IH]; intros p; cbn [searchFrom].
  - destruct (run (wordPattern w) (MState p "" []) Some) eqn:Hrun.
    + split; [intros _|congruence]. exists ""%string, ""%string. split; [reflexivity|].
      apply run_wordPattern. cbn [lastOr]. congruence.
    + split; [congruence|]. intros (pre & post & Hs & Hw).
      destruct pre; [|discriminate]. rewrite append_nil_l in Hs. subst post.
      apply run_wordPattern in Hw. cbn [lastOr] in Hw. congruence.
  - destruct (run (wordPattern w) (MState p (String c s) []) Some) eqn:Hrun.
    + split; [intros _|congruence]. exists ""%string, (String c s). split; [reflexivity|].
      apply run_wordPattern. cbn [lastOr]. congruence.
    + rewrite IH. split.
      * intros (pre & post & Hs & Hw). exists (String c pre), post.
        split; [rewrite append_cons; now f_equal | exact Hw].
      * intros (pre & post & Hs & Hw). destruct pre as [|c' pre].
        -- rewrite append_nil_l in Hs. subst post. apply run_wordPattern in Hw.
           cbn [lastOr] in Hw. congruence.
        -- rewrite append_cons in Hs. injection Hs as -> ->. now exists pre, post.
Qed.

Lemma readWord_spec (w : string) (p : option ascii) (s : string) (p' : option ascii) (s' : string) :
  readWord w p s = Some (p', s') <->
  exists occ, s = (occ ++ s')%string /\ sameWord w occ = true /\ p' = lastOr p occ.
Proof.
  revert p s. induction w as [|a w IH]; intros p s; cbn [readWord].
  - split.
    + intros H. injection H as <- <-. now exists ""%string.
    + intros (occ & Hs & Hw & Hp). destruct occ; [|discriminate].
      rewrite append_nil_l in Hs. cbn [lastOr] in Hp. now subst.
  - destruct s as [|b s0].
    + split; [discriminate|]. intros (occ & Hs & Hw & _). destruct occ; discriminate.
    + destruct (ciEq a b) eqn:Hab.
      * rewrite IH. split.
        -- intros (occ & Hs & Hw & Hp). exists (String b occ).
           rewrite append_cons. cbn [sameWord lastOr]. rewrite Hab. now subst.
        -- intros (occ & Hs & Hw & Hp). destruct occ as [|b' occ]; [discriminate|].
           rewrite append_cons in Hs. cbn [sameWord lastOr] in Hw, Hp. injection Hs as <- ->.
           apply andb_true_iff in Hw. destruct Hw as [_ Hw]. now exists occ.
      * split; [discriminate|]. intros (occ & Hs & Hw & _).
        destruct occ as [|b' occ]; [discriminate|]. rewrite append_cons in Hs.
        cbn [sameWord] in Hw. injection Hs as <- ->. rewrite Hab in Hw. discriminate.
Qed.

(** An occurrence of a word made of word characters starts and ends with
    one. *)
Lemma sameWord_ends (w occ : string) (p : option ascii) :
  w <> ""%string -> allWord w = true -> sameWord w occ = true ->
  isWordOpt (nextChar occ) = true /\ isWordOpt (lastOr p occ) = true.
Proof.
  intros Hne Hall Hsame. destruct w as [|a w]; [congruence|]. clear Hne.
  destruct occ as [|b occ]; [discriminate|]. cbn in Hall, Hsame.
  apply andb_true_iff in Hall, Hsame. destruct Hall as [Ha Hall], Hsame as [Hab Hsame].
  pose proof (ciEq_isWord a b Hab Ha) as Hb. split; [exact Hb|]. cbn [lastOr].
  clear p a Ha Hab. revert b Hb occ Hsame.
  induction w as [|a w IH]; intros b Hb occ Hsame.
  - destruct occ; [exact Hb | discriminate].
  - destruct occ as [|b' occ]; [discriminate|]. cbn in Hall, Hsame.
    apply andb_true_iff in Hall, Hsame. destruct Hall as [Ha Hall], Hsame as [Hab Hsame].
    cbn [lastOr]. apply (IH Hall b' (ciEq_isWord a b' Hab Ha) occ Hsame).
Qed.

Lemma nextChar_app (occ post : string) :
  occ <> ""%string -> nextChar (occ ++ post)%string = nextChar occ.
Proof. destruct occ; [congruence | reflexivity]. Qed.

(** The pattern [\bWORD\b] with flag [i] finds exactly the texts that contain
    the word. *)
Lemma test_wordPattern (w text : string) :
  w <> ""%string -> allWord w = true ->
  (test (wordPattern w) text = true <-> containsWord w text).
Proof.
  intros Hne Hall. unfold test, containsWord.
  assert (Hs : searchFrom (wordPattern w) None text <> None <->
               match searchFrom (wordPattern w) None text with Some _ => true | None => false end = true).
  { destruct (searchFrom (wordPattern w) None text); split; congruence. }
  rewrite <- Hs, search_wordPattern. unfold wordAt, atBoundary. cbn [prev rest]. split.
  - intros (pre & post & Htext & Hw). apply andb_true_iff in Hw. destruct Hw as [Hb1 Hw].
    destruct (readWord w (lastOr None pre) post) as [[p' s']|] eqn:Hr; [|discriminate].
    apply readWord_spec in Hr. destruct Hr as (occ & Hpost & Hsame & Hp').
    destruct (sameWord_ends w occ (lastOr None pre) Hne Hall Hsame) as [Hfirst Hlast].
    assert (Hocc : occ <> ""%string) by (intros ->; discriminate).
    exists pre, occ, s'. subst post p'. rewrite nextChar_app, Hfirst in Hb1 by exact Hocc.
    rewrite Hlast in Hw. repeat split; [exact Htext | exact Hsame | |].
    + now destruct (isWordOpt (lastOr None pre)).
    + now destruct (isWordOpt (nextChar s')).
  - intros (pre & occ & post & Htext & Hsame & Hbefore & Hafter).
    destruct (sameWord_ends w occ (lastOr None pre) Hne Hall Hsame) as [Hfirst Hlast].
    assert (Hocc : occ <> ""%string) by (intros ->; discriminate).
    exists pre, (occ ++ post)%string. split; [exact Htext|].
    rewrite nextChar_app, Hfirst, Hbefore by exact Hocc. cbn [xorb andb].
    assert (Hr : readWord w (lastOr None pre) (occ ++ post) = Some (lastOr (lastOr None pre) occ, post)).
    { apply readWord_spec. now exists occ. }
    rewrite Hr, Hlast, Hafter. reflexivity.
Qed.

(** ** Ambiguous items *)

(** C8. [normalizeAmbiguousItems] keeps the number and order of the items;
    an item whose name (lower-cased and trimmed) is "matcha latte" becomes
    the same item named "latte" exactly when the raw text contains the word
    "latte" and does not contain the word "matcha", and every other item is
    returned as it is. *)
Theorem C8_normalize_ambiguous_items (its : list item) (text : string) :
  length (normalizeAmbiguousItems (Some its) text) = length its /\
  forall i it, its !! i = Some it ->
    (itemKey it = "matcha latte"%string /\
     containsWord "latte" text /\ ~ containsWord "matcha" text ->
     normalizeAmbiguousItems (Some its) text !! i = Some (Item (Some "latte") (qty it)) /\
     Item (Some "latte") (qty it) <> it) /\
    (~ (itemKey it = "matcha latte"%string /\
        containsWord "latte" text /\ ~ containsWord "matcha" text) ->
     normalizeAmbiguousItems (Some its) text !! i = Some it).
Proof.
  cbn [normalizeAmbiguousItems]. split; [apply length_map|].
  intros i it Hi. rewrite list_lookup_fmap, Hi. cbn [fmap option_fmap option_map].
  assert (Hl : hasLatteWord text = true <-> containsWord "latte" text)
    by (apply (test_wordPattern "latte"); [discriminate | reflexivity]).
  assert (Hm : hasMatchaWord text = true <-> containsWord "matcha" text)
    by (apply (test_wordPattern "matcha"); [discriminate | reflexivity]).
  unfold normalizeItem. split.
  - intros (Hkey & Hlatte & Hmatcha). rewrite Hkey. apply Hl in Hlatte. rewrite Hlatte.
    destruct (hasMatchaWord text); [exfalso; apply Hmatcha, Hm; reflexivity|].
    split; [reflexivity|]. intros E. rewrite <- E in Hkey. vm_compute in Hkey. discriminate.
  - intros Hnot. destruct (String.eqb (itemKey it) "matcha latte") eqn:Hkey; [|reflexivity].
    apply String.eqb_eq in Hkey. destruct (hasLatteWord text) eqn:Hlatte; [|reflexivity].
    destruct (hasMatchaWord text) eqn:Hmatcha; [reflexivity|].
    exfalso. apply Hnot. split; [exact Hkey|]. split; [now apply Hl|].
    intros Hc. apply Hm in Hc. congruence.
Qed.

(** C8 at work: "sold a Latte" turns a parsed "Matcha Latte" into
    "latte". *)
Lemma C8_normalize_ambiguous_items_witness :
  normalizeAmbiguousItems
    (Some [Item (Some "Matcha Latte") (Some 2); Item (Some "espresso") None]) "sold a Latte" !! 0%nat
  = Some (Item (Some "latte") (Some 2)).
Proof.
  refine (proj1 (proj1 (proj2 (C8_normalize_ambiguous_items
                                 [Item (Some "Matcha Latte") (Some 2); Item (Some "espresso") None]
                                 "sold a Latte") 0%nat (Item (Some "Matcha Latte") (Some 2)) eq_refl) _)).
  split; [vm_compute; reflexivity|]. split.
  - exists "sold a "%string, "Latte"%string, ""%string. repeat split.
  - intros H. apply (test_wordPattern "matcha") in H; [|discriminate|reflexivity].
    vm_compute in H. discriminate H.
Defined.


(** * Further properties

    Properties of the handlers beyond the statements of the specification,
    read off the source. *)

(** ** The text handler, intent by intent *)




(** ** The recorder, as equations *)




(** The world the debt branch leaves. *)
Lemma recordDebt_run (now : Clock) (parsed : parsedMsg) (w : World) :
  let its := itemsOf parsed in
  let vs := omap validOf its in
  let t := inferTotalFromItems (Some its) in
  let p := totalPaidOf parsed in
  let s' := MkStore (sales (store w) ++ flat_map (itemSales now (debtor parsed) t p) vs)
                    (debts (store w) ++ flat_map (itemDebts now (debtor parsed) t p) vs)
                    (summary (store w)) in
  recordDebt now parsed w
  = (tt,
     match its with
     | [] => MkWorld (store w) (outbox w ++ [RNoItemsDebt])
     | _ =>
         match vs with
         | [] => MkWorld (store w) (outbox w ++ flat_map warningOf its)
         | _ =>
             if PrimFloat.ltb t p
             then MkWorld (store w) (outbox w ++ flat_map warningOf its ++ [RPaidExceeds p t])
             else MkWorld (MkStore (sales s') (debts s') (summaryRows now s'))
                          (outbox w ++ flat_map warningOf its
                             ++ [RDebtRecorded (map lineOf vs) t p
                                   (if PrimFloat.ltb 0 (owedTotal t p vs)
                                    then Some (owedTotal t p vs) else None)
                                   (debtor parsed)])
         end
     end).
Proof.
  intros its vs t p s'. subst its vs t p s'. unfold recordDebt. fold (debtor parsed).
  destruct (itemsOf parsed) as [|it0 its0]; [reflexivity|].
  rewrite bind_run, resolveItems_run. cbn [fst snd].
  destruct (omap validOf (it0 :: its0)) as [|v0 vs0]; [reflexivity|].
  destruct (PrimFloat.ltb _ _).
  - unfold ctxReply. cbn [snd store outbox]. now rewrite <- app_assoc.
  - rewrite bind_run, allocate_run. cbn [fst snd]. rewrite bind_run.
    unfold updateSummary. rewrite bind_run. unfold ctxReply, appended.
    cbn [getStore putStore fst snd store outbox sales debts summary].
    unfold owedTotal. now rewrite <- app_assoc.
Qed.






Lemma debtOfSale_unit (now : Clock) (who : string) (v : validItem) (itemPaid : float) :
  unitDebt now who v itemPaid = option_list (debtOfSale (unitSale now who v itemPaid)).
Proof.
  unfold unitDebt, debtOfSale, unitSale. cbn [amountOwed sDate customerOrNote sItem unitPrice amountPaid].
  destruct (PrimFloat.ltb 0 _); reflexivity.
Qed.

Lemma omap_replicate {A B} (f : A -> option B) (n : nat) (x : A) :
  omap f (replicate n x) = concat (replicate n (option_list (f x))).
Proof.
  induction n as [|n IH]; [reflexivity|].
  cbn [replicate concat]. rewrite <- IH.
  change (omap f (x :: replicate n x))
    with (match f x with Some y => y :: omap f (replicate n x) | None => omap f (replicate n x) end).
  destruct (f x); reflexivity.
Qed.

Lemma omap_flat_map {A B C} (f : B -> option C) (g : A -> list B) (l : list A) :
  omap f (flat_map g l) = flat_map (fun x => omap f (g x)) l.
Proof.
  induction l as [|x l IH]; [reflexivity|].
  cbn [flat_map]. now rewrite omap_app, IH.
Qed.

(** X4. The debt branch writes to Debts exactly the rows it wrote to Sales
    that still owe something, in the same order, each with the date,
    customer, item, price, paid and owed amounts of its Sales row, status
    [Pending] and no settlement date. *)
Theorem debts_mirror_sales (now : Clock) (parsed : parsedMsg) (w : World) :
  let w' := snd (recordDebt now parsed w) in
  exists rows,
    sales (store w') = sales (store w) ++ rows /\
    debts (store w') = debts (store w) ++ omap debtOfSale rows.
Proof.
  intros w'. subst w'. exists (debtSales now parsed). split; [apply recordDebt_sales|].
  rewrite recordDebt_run. cbv zeta. cbn [snd]. unfold debtSales.
  assert (Hflat : forall t p vs,
             flat_map (itemDebts now (debtor parsed) t p) vs
             = omap debtOfSale (flat_map (itemSales now (debtor parsed) t p) vs)).
  { intros t p vs. rewrite omap_flat_map. apply flat_map_ext. intros v.
    unfold itemDebts, itemSales. now rewrite omap_replicate, debtOfSale_unit. }
  destruct (itemsOf parsed) as [|it0 its0].
  - cbn. destruct (PrimFloat.ltb _ _); now rewrite app_nil_r.
  - destruct (omap validOf (it0 :: its0)) as [|v0 vs0].
    + cbn. destruct (PrimFloat.ltb _ _); now rewrite app_nil_r.
    + destruct (PrimFloat.ltb _ _).
      * cbn. now rewrite app_nil_r.
      * cbn [store debts]. now rewrite Hflat.
Qed.

(** ** More on settlement *)

Lemma settledTotal_cons (who : string) (amount : option float) (settled : float)
    (r : DebtRow) (rows : list DebtRow) :
  settledTotal who amount settled (r :: rows)
  = settledTotal who amount
      (if settles who amount settled r then (settled + cellNum (dOwed r))%float else settled) rows.
Proof. reflexivity. Qed.

Lemma runningSettled_bounded (who : string) (cap : float) (rows : list DebtRow) (settled : float) :
  settledTotal who (Some cap) settled rows = settled \/
  PrimFloat.leb (settledTotal who (Some cap) settled rows) (cap + 0.01) = true.
Proof.
  revert settled. induction rows as [|r rows IH]; intros settled; [now left|].
  rewrite settledTotal_cons. unfold settles.
  destruct (pendingFor who r); cbn [andb]; [|apply IH].
  destruct (capOK (Some cap) settled (cellNum (dOwed r))) eqn:Hcap; [|apply IH].
  destruct (IH (settled + cellNum (dOwed r))%float) as [H|H]; [|now right].
  right. rewrite H. exact Hcap.
Qed.

(** X5. A settlement with a cap never goes over it: whenever the handler
    reports a settled amount, the total it added up (which it reports
    rounded to two decimals) is at most the cap plus 0.01. *)
Theorem capped_settlement_stays_under_cap (who : string) (cap : float) (now : Clock)
    (w : World) (x : float) (whom : string) :
  last (outbox (snd (settleFor who (Some cap) now w))) = Some (RSettled x whom) ->
  exists total,
    total = runningSettled who (Some cap) (debts (store w)) /\
    x = round2 total /\ PrimFloat.leb total (cap + 0.01) = true.
Proof.
  rewrite settleFor_run. cbn [snd outbox]. rewrite last_snoc.
  intros H. exists (runningSettled who (Some cap) (debts (store w))).
  split; [reflexivity|].
  destruct (PrimFloat.eqb (runningSettled who (Some cap) (debts (store w))) 0) eqn:E;
    [discriminate H|].
  injection H as <- _. split; [reflexivity|].
  destruct (runningSettled_bounded who cap (debts (store w)) 0) as [H0|H0]; [|exact H0].
  change (runningSettled who (Some cap) (debts (store w)))
    with (settledTotal who (Some cap) 0 (debts (store w))) in E.
  rewrite H0 in E. vm_compute in E. discriminate E.
Qed.

(** X5 at work: the three debts of Ahmed with a cap of 14; 10 is settled. *)
Lemma capped_settlement_stays_under_cap_witness :
  exists total, total = runningSettled "AHMED" (Some 14%float) (debts (store threeDebts)) /\
    10%float = round2 total /\ PrimFloat.leb total (14 + 0.01) = true.
Proof.
  apply (capped_settlement_stays_under_cap "AHMED" 14 noon threeDebts 10 "AHMED").
  vm_compute. reflexivity.
Defined.

Lemma settledRows_none_pending (who : string) (amount : option float) (on : string)
    (rows : list DebtRow) (settled : float) :
  (forall r, r ∈ rows -> pendingFor who r = false) ->
  settledRows who amount on settled rows = rows /\
  settledTotal who amount settled rows = settled.
Proof.
  revert settled. induction rows as [|r rows IH]; intros settled H; [split; reflexivity|].
  rewrite settledTotal_cons. cbn [settledRows]. unfold settles.
  rewrite (H r (list_elem_of_here _ _)). cbn [andb].
  destruct (IH settled) as [H1 H2]; [intros x Hx; apply H; now right|].
  now rewrite H1, H2.
Qed.

Lemma settleFor_none_pending (who : string) (amount : option float) (now : Clock) (w : World) :
  (forall r, r ∈ debts (store w) -> pendingFor who r = false) ->
  settleFor who amount now w
  = (tt, MkWorld (MkStore (sales (store w)) (debts (store w)) (summaryRows now (store w)))
                 (outbox w ++ [RNoPending who])).
Proof.
  intros H. rewrite settleFor_run. cbv zeta.
  destruct (settledRows_none_pending who amount (today now) _ 0%float H) as [Hrows Htotal].
  change (runningSettled who amount (debts (store w)))
    with (settledTotal who amount 0 (debts (store w))).
  rewrite Hrows, Htotal.
  replace (PrimFloat.eqb 0 0) with true by (vm_compute; reflexivity).
  reflexivity.
Qed.

(** X6. Settling for a customer with no pending row changes no row of Sales
    or Debts (the Summary is rewritten from them) and answers that no
    pending debts were found. *)
Theorem settle_without_pending_rows (who : string) (amount : option float) (now : Clock)
    (w : World) :
  (forall r, r ∈ debts (store w) -> pendingFor who r = false) ->
  let w' := snd (settleFor who amount now w) in
  sales (store w') = sales (store w) /\
  debts (store w') = debts (store w) /\
  summary (store w') = summaryRows now (store w) /\
  outbox w' = outbox w ++ [RNoPending who].
Proof.
  intros H w'. subst w'. rewrite (settleFor_none_pending _ _ _ _ H).
  repeat split; reflexivity.
Qed.

(** X6 at work: Sara owes nothing. *)
Lemma settle_without_pending_rows_witness :
  outbox (snd (settleFor "Sara" None noon threeDebts)) = [RNoPending "Sara"].
Proof.
  refine (proj2 (proj2 (proj2 (settle_without_pending_rows "Sara" None noon threeDebts _)))).
  intros r Hr. cbn in Hr.
  repeat (apply elem_of_cons in Hr; destruct Hr as [-> | Hr]; [vm_compute; reflexivity|]).
  inversion Hr.
Defined.

Lemma pendingFor_ignores_case (who whom : string) (r : DebtRow) :
  toLowerCase whom = toLowerCase who -> pendingFor whom r = pendingFor who r.
Proof. intros H. unfold pendingFor. now rewrite H. Qed.

Lemma uncapped_none_pending (who : string) (on : string) (rows : list DebtRow) :
  forall r, r ∈ map (fun r => if pendingFor who r then markSettled on r else r) rows ->
            pendingFor who r = false.
Proof.
  intros r Hr. apply list_elem_of_fmap in Hr. destruct Hr as (r0 & -> & _).
  destruct (pendingFor who r0) eqn:Hp; [|exact Hp].
  unfold pendingFor, markSettled. cbn [dStatus dCustomer]. apply andb_false_r.
Qed.

(** X7. A settlement without a cap is complete: afterwards no row of the
    customer is pending, under any spelling of the name that differs only in
    case, so that settling again, with or without a cap, changes no row and
    answers that no pending debts were found. *)
Theorem uncapped_settlement_is_complete (who whom : string) (amount : option float)
    (now again : Clock) (w : World) :
  toLowerCase whom = toLowerCase who ->
  let w1 := snd (settleFor who None now w) in
  let w2 := snd (settleFor whom amount again w1) in
  (forall r, r ∈ debts (store w1) -> pendingFor whom r = false) /\
  sales (store w2) = sales (store w) /\
  debts (store w2) = debts (store w1) /\
  outbox w2 = outbox w1 ++ [RNoPending whom].
Proof.
  intros Hcase w1 w2.
  assert (Hnone : forall r, r ∈ debts (store w1) -> pendingFor whom r = false).
  { intros r Hr. subst w1. rewrite settleFor_run in Hr. cbn [snd store debts] in Hr.
    rewrite uncapped_rows in Hr. rewrite (pendingFor_ignores_case _ _ _ Hcase).
    exact (uncapped_none_pending _ _ _ r Hr). }
  split; [exact Hnone|]. subst w2.
  rewrite (settleFor_none_pending _ _ _ _ Hnone). cbn [snd store sales debts outbox].
  repeat split. subst w1. now rewrite settleFor_run.
Qed.

(** X7 at work: Ahmed's debts are settled; settling again, under another
    spelling and with a cap, finds nothing. *)
Lemma uncapped_settlement_is_complete_witness :
  outbox (snd (settleFor "AHMED" (Some 14%float) later (snd (settleFor "Ahmed" None noon threeDebts))))
  = [RSettled 24 "Ahmed"; RNoPending "AHMED"].
Proof.
  rewrite (proj2 (proj2 (proj2 (uncapped_settlement_is_complete "Ahmed" "AHMED" (Some 14%float)
                                  noon later threeDebts eq_refl)))).
  vm_compute. reflexivity.
Defined.

(** ** Texts *)

Lemma append_nil_r (s : string) : (s ++ "")%string = s.
Proof. induction s as [|c s IH]; [reflexivity|]. now rewrite append_cons, IH. Qed.

Lemma append_assoc (s t u : string) : ((s ++ t) ++ u)%string = (s ++ t ++ u)%string.
Proof.
  induction s as [|c s IH]; [now rewrite !append_nil_l|].
  now rewrite !append_cons, IH.
Qed.

(** ** The [/summary] command *)

Lemma summaryRows_sheets (now : Clock) (s : Store) (rows : list (string * sval)) :
  summaryRows now (MkStore (sales s) (debts s) rows) = summaryRows now s.
Proof. reflexivity. Qed.

Lemma tally_run (day : string) (rows : list SaleRow) (t : tally) :
  fold_left (tallySale day) rows t
  = MkTally (sumFrom unitPrice (filter (fun r => sDate r = day) rows) (todaySales t))
            (sumFrom amountPaid (filter (fun r => sDate r = day) rows) (todayCollected t))
            (sumFrom amountOwed (filter (fun r => sDate r = day) rows) (todayDebt t))
            (sumFrom unitPrice rows (totalSales t))
            (sumFrom amountPaid rows (totalCollected t))
            (txCount t + length rows).
Proof.
  revert t. induction rows as [|r rows IH]; intros t.
  - cbn. rewrite Nat.add_0_r. now destruct t.
  - cbn [fold_left]. rewrite IH. unfold tallySale.
    destruct (String.eqb (sDate r) day) eqn:E.
    + apply String.eqb_eq in E. rewrite (filter_cons_True (fun r => sDate r = day) r rows E).
      cbn [todaySales todayCollected todayDebt totalSales totalCollected txCount length].
      unfold sumFrom. cbn [fold_left]. f_equal. lia.
    + apply String.eqb_neq in E. rewrite (filter_cons_False (fun r => sDate r = day) r rows E).
      cbn [todaySales todayCollected todayDebt totalSales totalCollected txCount length].
      unfold sumFrom. cbn [fold_left]. f_equal. lia.
Qed.

Lemma tallyDebt_run (rows : list DebtRow) (u : float) :
  fold_left tallyDebt rows u
  = sumFrom dOwed (filter (fun r => dStatus r = "Pending"%string) rows) u.
Proof.
  revert u. induction rows as [|r rows IH]; intros u; [reflexivity|].
  cbn [fold_left]. rewrite IH. unfold tallyDebt.
  destruct (String.eqb (dStatus r) "Pending") eqn:E.
  - apply String.eqb_eq in E. now rewrite (filter_cons_True (fun r => dStatus r = "Pending"%string) r rows E).
  - apply String.eqb_neq in E. now rewrite (filter_cons_False (fun r => dStatus r = "Pending"%string) r rows E).
Qed.

Lemma summaryCommand_run (now : Clock) (w : World) :
  summaryCommand now w
  = (ASummary (today now)
       (MkTally (sumOf unitPrice (filter (fun r => sDate r = today now) (sales (store w))))
                (sumOf amountPaid (filter (fun r => sDate r = today now) (sales (store w))))
                (sumOf amountOwed (filter (fun r => sDate r = today now) (sales (store w))))
                (sumOf unitPrice (sales (store w)))
                (sumOf amountPaid (sales (store w)))
                (length (sales (store w))))
       (sumOf dOwed (filter (fun r => dStatus r = "Pending"%string) (debts (store w)))),
     w).
Proof.
  unfold summaryCommand. rewrite bind_run. cbn [getStore fst snd ret].
  now rewrite tally_run, tallyDebt_run.
Qed.

(** X8. [/summary] changes nothing and reports the figures of the Summary
    sheet: at one clock reading, its today's and all-time sales and
    collected amounts, its number of transactions and its unsettled debts
    are the values [updateSummary] writes; what it adds is today's unpaid
    amount, the owed amounts of today's Sales rows added up. *)
Theorem summary_command_agrees_with_sheet (now : Clock) (w : World) :
  exists figures unsettled,
    summaryCommand now w = (ASummary (today now) figures unsettled, w) /\
    summary (store (snd (updateSummary now w)))
    = [ ("Metric", VText "Value");
        ("Last Updated", VText (stamp now));
        ("--- TODAY ---", VText "");
        ("Today's Revenue", VAed (todaySales figures));
        ("Today's Collected", VAed (todayCollected figures));
        ("--- ALL TIME ---", VText "");
        ("Total Revenue", VAed (totalSales figures));
        ("Total Collected", VAed (totalCollected figures));
        ("Total Transactions", VCount (txCount figures));
        ("--- DEBTS ---", VText "");
        ("Unsettled Debts", VAed unsettled);
        ("Settled Debts",
         VAed (sumOf dOwed (filter (fun r => dStatus r = "Settled") (debts (store w))))) ]%string /\
    todayDebt figures
    = sumOf amountOwed (filter (fun r => sDate r = today now) (sales (store w))).
Proof.
  eexists _, _. rewrite summaryCommand_run. split; [reflexivity|].
  split; reflexivity.
Qed.

(** ** Writes and the Summary sheet *)




Lemma clearall_confirmed (now : Clock) (messageText : string) (w : World) :
  clearallArg messageText = "confirm"%string ->
  clearallCommand now messageText w
  = (ACleared, MkWorld (MkStore [] [] (summaryRows now (MkStore [] [] []))) (outbox w)).
Proof. intros H. unfold clearallCommand. rewrite H. reflexivity. Qed.

Lemma clearall_unconfirmed (now : Clock) (messageText : string) (w : World) :
  clearallArg messageText <> "confirm"%string ->
  clearallCommand now messageText w = (AClearWarning, w).
Proof.
  intros H. unfold clearallCommand. apply String.eqb_neq in H. now rewrite H.
Qed.


(** ** The [/clearall] command *)

Lemma splitOn_no_sep (sep : ascii) (cur s : string) :
  allChars (fun c => negb (Ascii.eqb c sep)) s = true -> splitOn sep cur s = [(cur ++ s)%string].
Proof.
  revert cur. induction s as [|c s IH]; intros cur H; cbn [splitOn].
  - now rewrite append_nil_r.
  - cbn [allChars] in H. apply andb_true_iff in H. destruct H as [Hc Hs].
    apply negb_true_iff in Hc. rewrite Hc, (IH _ Hs), append_assoc. reflexivity.
Qed.

Lemma splitOn_first (sep : ascii) (cur command rest : string) :
  allChars (fun c => negb (Ascii.eqb c sep)) command = true ->
  splitOn sep cur (command ++ String sep rest)
  = (cur ++ command)%string :: splitOn sep "" rest.
Proof.
  revert cur. induction command as [|c command IH]; intros cur H.
  - rewrite append_nil_l, append_nil_r. cbn [splitOn]. now rewrite Ascii.eqb_refl.
  - cbn [allChars] in H. apply andb_true_iff in H. destruct H as [Hc Hs].
    apply negb_true_iff in Hc. rewrite append_cons. cbn [splitOn].
    rewrite Hc, (IH _ Hs), append_assoc. reflexivity.
Qed.

Lemma splitOn_cons (sep : ascii) (cur s : string) :
  exists part parts, splitOn sep cur s = part :: parts.
Proof.
  revert cur. induction s as [|c s IH]; intros cur; cbn [splitOn]; [now eexists _, _|].
  destruct (Ascii.eqb c sep); [now eexists _, _ | apply IH].
Qed.

Lemma concat_cons (sep x y : string) (l : list string) :
  String.concat sep (x :: y :: l) = (x ++ sep ++ String.concat sep (y :: l))%string.
Proof. reflexivity. Qed.

Lemma concat_splitOn (sep : ascii) (cur s : string) :
  String.concat (String sep "") (splitOn sep cur s) = (cur ++ s)%string.
Proof.
  revert cur. induction s as [|c s IH]; intros cur; cbn [splitOn].
  - cbn. now rewrite append_nil_r.
  - destruct (Ascii.eqb c sep) eqn:E.
    + apply Ascii.eqb_eq in E. subst c.
      destruct (splitOn_cons sep "" s) as (part & parts & Hs).
      pose proof (IH ""%string) as IH'. rewrite Hs in IH' |- *.
      rewrite concat_cons, IH', append_nil_l. reflexivity.
    + rewrite IH, append_assoc. reflexivity.
Qed.

Lemma clearallArg_rest (command rest : string) :
  allChars notBlank command = true ->
  clearallArg (command ++ " " ++ rest) = trim rest /\ clearallArg command = ""%string.
Proof.
  intros H. unfold clearallArg. split.
  - change (" " ++ rest)%string with (String " " rest).
    rewrite (splitOn_first " " "" command rest H). cbn [tail].
    now rewrite (concat_splitOn " " "" rest), append_nil_l.
  - now rewrite (splitOn_no_sep " " "" command H).
Qed.

(** X10. [/clearall] wipes the records only when the text after the first
    space of the message, trimmed, is exactly [confirm]: otherwise (and
    when nothing follows the command) it changes nothing and warns. After a
    confirmed [/clearall], Sales and Debts are empty, [/summary] reports
    zero everywhere and [/debts] reports no outstanding debts. *)
Theorem clearall_needs_confirm (now : Clock) (command rest : string) (w : World) :
  allChars notBlank command = true ->
  clearallCommand now command w = (AClearWarning, w) /\
  (trim rest <> "confirm"%string ->
     clearallCommand now (command ++ " " ++ rest) w = (AClearWarning, w)) /\
  (trim rest = "confirm"%string ->
     let w' := snd (clearallCommand now (command ++ " " ++ rest) w) in
     fst (clearallCommand now (command ++ " " ++ rest) w) = ACleared /\
     sales (store w') = [] /\ debts (store w') = [] /\ outbox w' = outbox w /\
     fst (summaryCommand now w') = ASummary (today now) (MkTally 0 0 0 0 0 0) 0 /\
     fst (debtsCommand w') = ANoDebts).
Proof.
  intros H. destruct (clearallArg_rest command rest H) as [Hrest Hnone].
  split; [|split].
  - apply clearall_unconfirmed. rewrite Hnone. discriminate.
  - intros Hne. apply clearall_unconfirmed. now rewrite Hrest.
  - intros Hconfirm w'. subst w'. rewrite clearall_confirmed by now rewrite Hrest.
    repeat split.
Qed.

(** X10 at work: [confirm] between spaces wipes the records, [CONFIRM] does
    not. *)
Lemma clearall_needs_confirm_witness :
  clearallCommand noon "/clearall  confirm " threeDebts
  = (ACleared, MkWorld (MkStore [] [] (summaryRows noon (MkStore [] [] []))) []) /\
  clearallCommand noon "/clearall CONFIRM" threeDebts = (AClearWarning, threeDebts).
Proof.
  destruct (clearall_needs_confirm noon "/clearall" " confirm " threeDebts eq_refl) as (_ & _ & H).
  destruct (clearall_needs_confirm noon "/clearall" "CONFIRM" threeDebts eq_refl) as (_ & H' & _).
  split.
  - specialize (H eq_refl). cbv zeta in H. destruct H as (H1 & H2 & H3 & H4 & _).
    destruct (clearallCommand noon ("/clearall" ++ " " ++ " confirm ") threeDebts) as [a [[ss ds sm] ob]] eqn:E.
    cbn in H1, H2, H3, H4. subst.
    change ("/clearall" ++ " " ++ " confirm ")%string with "/clearall  confirm "%string in E.
    rewrite E. f_equal. f_equal. f_equal.
    apply (f_equal (fun x => summary (store (snd x)))) in E. cbn in E. rewrite <- E.
    vm_compute. reflexivity.
  - apply H'. vm_compute. discriminate.
Defined.

(** ** The [/menu] command *)

Lemma MENU_entries (key : string) (m : menuItem) :
  MENU !! key = Some m -> (key, m) ∈ menuEntries.
Proof.
  intros H. with_strategy transparent [MENU] unfold MENU in H.
  apply elem_of_list_to_map_2 in H. exact H.
Qed.

(** X11. [/menu] shows the catalog: it has as many lines as [MENU] has
    entries, under pairwise different names; every entry is listed under
    its category, by its capitalized name and with its price; and a name as
    it is shown, used as the name of an item, resolves to a catalog entry of
    the price shown. *)
Theorem menu_shows_what_can_be_ordered (w : World) :
  exists matcha coffee,
    menuCommand w = (AMenu matcha coffee, w) /\
    length (matcha ++ coffee) = size MENU /\
    NoDup (map fst (matcha ++ coffee)) /\
    (forall key m, MENU !! key = Some m ->
       (capitalize key, price m) ∈ (if String.eqb (category m) "Matcha" then matcha else coffee)) /\
    (forall shown p q, (shown, p) ∈ matcha ++ coffee ->
       exists m, MENU !! itemKey (Item (Some shown) q) = Some m /\ price m = p).
Proof.
  eexists _, _. split; [reflexivity|]. split; [vm_compute; reflexivity|].
  split; [apply (bool_decide_eq_true_1 _); vm_compute; reflexivity|]. split.
  - intros key m H. apply MENU_entries in H.
    repeat (apply elem_of_cons in H; destruct H as [H|H];
            [injection H as -> ->; apply list_elem_of_In; vm_compute; tauto|]).
    inversion H.
  - intros shown p q H.
    change (menuSection "Matcha" ++ menuSection "Coffee")
      with (map (fun e => (capitalize (fst e), price (snd e))) menuEntries) in H.
    apply list_elem_of_fmap in H. destruct H as ([key m] & E & H). cbn [fst snd] in E.
    injection E as -> ->.
    repeat (apply elem_of_cons in H; destruct H as [H|H];
            [injection H as -> ->; eexists; split; vm_compute; reflexivity|]).
    inversion H.
Qed.

(** ** The [/debts] command *)

Lemma updateOwn_None (name : string) (f : debtInfo -> debtInfo) (obj : list (string * debtInfo)) :
  updateOwn name f obj = None <-> name ∉ map fst obj.
Proof.
  induction obj as [|[k v] obj IH]; cbn [updateOwn map fst].
  - split; [intros _ H; inversion H | reflexivity].
  - destruct (String.eqb k name) eqn:E.
    + apply String.eqb_eq in E. subst k. split; [discriminate|].
      intros H. exfalso. apply H. left.
    + apply String.eqb_neq in E. rewrite not_elem_of_cons.
      destruct (updateOwn name f obj); cbn.
      * split; [discriminate|]. intros [_ H]. now apply IH in H.
      * split; [|reflexivity]. intros _. split; [congruence | now apply IH].
Qed.

Lemma updateOwn_Some (name : string) (f : debtInfo -> debtInfo)
    (obj obj' : list (string * debtInfo)) :
  updateOwn name f obj = Some obj' ->
  map fst obj' = map fst obj /\
  (exists info0, (name, info0) ∈ obj /\ (name, f info0) ∈ obj') /\
  (forall n info, (n, info) ∈ obj' -> n <> name -> (n, info) ∈ obj).
Proof.
  revert obj'. induction obj as [|[k v] obj IH]; intros obj' H; cbn [updateOwn] in H; [discriminate|].
  destruct (String.eqb k name) eqn:E.
  - apply String.eqb_eq in E. subst k. injection H as <-. split; [reflexivity|]. split.
    + exists v. split; left.
    + intros n info Hin Hn. apply elem_of_cons in Hin. destruct Hin as [Hin|Hin].
      * injection Hin as -> _. contradiction.
      * now right.
  - destruct (updateOwn name f obj) as [obj0|]; [|discriminate]. cbn in H. injection H as <-.
    destruct (IH obj0 eq_refl) as (Hk & (info0 & H0 & H0') & Hrest).
    split; [cbn; now rewrite Hk|]. split.
    + exists info0. split; now right.
    + intros n info Hin Hn. apply elem_of_cons in Hin. destruct Hin as [Hin|Hin].
      * injection Hin as -> ->. left.
      * right. now apply Hrest.
Qed.

Lemma NoDup_fst_unique {A} (l : list (string * A)) (k : string) (a b : A) :
  NoDup (map fst l) -> (k, a) ∈ l -> (k, b) ∈ l -> a = b.
Proof.
  induction l as [|[k0 v0] l IH]; intros Hnd Ha Hb; [inversion Ha|].
  cbn in Hnd. apply NoDup_cons in Hnd. destruct Hnd as [Hk0 Hnd].
  apply elem_of_cons in Ha, Hb.
  assert (Hfst : forall x, (k0, x) ∈ l -> k0 ∈ map fst l).
  { intros x Hx. apply list_elem_of_fmap. now exists (k0, x). }
  destruct Ha as [Ha|Ha], Hb as [Hb|Hb].
  - congruence.
  - injection Ha as -> ->. exfalso. exact (Hk0 (Hfst _ Hb)).
  - injection Hb as -> ->. exfalso. exact (Hk0 (Hfst _ Ha)).
  - now apply IH.
Qed.

Lemma sumOf_snoc {A} (f : A -> float) (rows : list A) (r : A) :
  sumOf f (rows ++ [r]) = (sumOf f rows + cellNum (f r))%float.
Proof. unfold sumOf. now rewrite fold_left_app. Qed.

Lemma infoOf_snoc (rows : list DebtRow) (r : DebtRow) :
  infoOf (rows ++ [r]) = addTo r (infoOf rows).
Proof. unfold infoOf, addTo. cbn [infoItems infoTotal]. now rewrite map_app, sumOf_snoc. Qed.

Lemma rowsOf_snoc (n : string) (done : list DebtRow) (r : DebtRow) :
  rowsOf n (done ++ [r])
  = if String.eqb (customerName r) n then rowsOf n done ++ [r] else rowsOf n done.
Proof.
  unfold rowsOf. rewrite filter_app.
  destruct (String.eqb (customerName r) n) eqn:E.
  - apply String.eqb_eq in E.
    now rewrite (filter_cons_True (fun r => customerName r = n) r [] E).
  - apply String.eqb_neq in E.
    rewrite (filter_cons_False (fun r => customerName r = n) r [] E). apply app_nil_r.
Qed.

Lemma rowsOf_nil (n : string) (done : list DebtRow) :
  (forall r, r ∈ done -> customerName r <> n) -> rowsOf n done = [].
Proof.
  intros H. induction done as [|r done IH]; [reflexivity|]. unfold rowsOf.
  rewrite (filter_cons_False (fun r => customerName r = n) r done (H r (list_elem_of_here _ _))).
  apply IH. intros x Hx. apply H. now right.
Qed.

Lemma groupRow_grouped (obj : list (string * debtInfo)) (done : list DebtRow) (r : DebtRow) :
  grouped obj done -> customerName r ∉ inherited ->
  exists obj', groupRow obj r = Some obj' /\ grouped obj' (done ++ [r]).
Proof.
  intros (Hnd & Hkeys & Hinfo) Hname. unfold groupRow.
  destruct (updateOwn (customerName r) (addTo r) obj) as [obj'|] eqn:E.
  - exists obj'. split; [reflexivity|].
    destruct (updateOwn_Some _ _ _ _ E) as (Hk & (info0 & H0 & H0') & Hrest).
    split; [now rewrite Hk|]. split.
    + intros n. rewrite Hk, Hkeys. split.
      * intros (x & Hx & Hn). exists x. split; [apply elem_of_app; now left | exact Hn].
      * intros (x & Hx & Hn). apply elem_of_app in Hx. destruct Hx as [Hx|Hx]; [now exists x|].
        apply list_elem_of_singleton in Hx. subst x.
        apply Hkeys. rewrite <- Hn. apply list_elem_of_fmap. now exists (customerName r, info0).
    + intros n info Hin. rewrite rowsOf_snoc.
      destruct (String.eqb (customerName r) n) eqn:En.
      * apply String.eqb_eq in En. subst n.
        assert (Hnd' : NoDup (map fst obj')) by now rewrite Hk.
        rewrite (NoDup_fst_unique _ _ _ _ Hnd' Hin H0').
        now rewrite infoOf_snoc, (Hinfo _ _ H0).
      * apply String.eqb_neq in En. apply Hinfo. apply Hrest; [exact Hin | congruence].
  - apply updateOwn_None in E.
    destruct (bool_decide (customerName r ∈ inherited)) eqn:Hb;
      [apply bool_decide_eq_true in Hb; contradiction|].
    eexists. split; [reflexivity|]. split; [|split].
    + rewrite map_app. cbn [map fst]. apply NoDup_app. split; [exact Hnd|]. split.
      * intros x Hx Hx'. apply list_elem_of_singleton in Hx'. now subst x.
      * apply NoDup_singleton.
    + intros n. rewrite map_app. cbn [map fst]. rewrite elem_of_app, Hkeys, list_elem_of_singleton.
      split.
      * intros [(x & Hx & Hn) | ->].
        -- exists x. split; [apply elem_of_app; now left | exact Hn].
        -- exists r. split; [apply elem_of_app; right; now apply list_elem_of_singleton | reflexivity].
      * intros (x & Hx & Hn). apply elem_of_app in Hx. destruct Hx as [Hx|Hx]; [left; now exists x|].
        apply list_elem_of_singleton in Hx. subst x. now right.
    + intros n info Hin. rewrite rowsOf_snoc. apply elem_of_app in Hin.
      destruct Hin as [Hin|Hin].
      * assert (Hn : n ∈ map fst obj) by (apply list_elem_of_fmap; now exists (n, info)).
        destruct (String.eqb (customerName r) n) eqn:En.
        -- apply String.eqb_eq in En. subst n. contradiction.
        -- now apply Hinfo.
      * apply list_elem_of_singleton in Hin. injection Hin as -> ->.
        rewrite String.eqb_refl, rowsOf_nil; [reflexivity|].
        intros x Hx Hn. apply E. apply Hkeys. now exists x.
Qed.

Lemma groupRows_grouped (pending : list DebtRow) (obj : list (string * debtInfo))
    (done : list DebtRow) :
  grouped obj done ->
  (forall r, r ∈ pending -> customerName r ∉ inherited) ->
  exists obj', groupRows obj pending = Some obj' /\ grouped obj' (done ++ pending).
Proof.
  revert obj done. induction pending as [|r pending IH]; intros obj done Hg Hnames.
  - exists obj. rewrite app_nil_r. now split.
  - destruct (groupRow_grouped obj done r Hg (Hnames r (list_elem_of_here _ _))) as (obj1 & H1 & Hg1).
    destruct (IH obj1 (done ++ [r]) Hg1) as (obj' & H' & Hg'); [intros x Hx; apply Hnames; now right|].
    exists obj'. cbn [groupRows]. rewrite H1. split; [exact H'|].
    now rewrite <- app_assoc in Hg'.
Qed.

Lemma insertIndexed_Permutation {A} (i : Z) (x : A) (l : list (Z * A)) :
  map snd (insertIndexed i x l) ≡ₚ x :: map snd l.
Proof.
  induction l as [|[j y] l IH]; [reflexivity|]. cbn [insertIndexed].
  destruct (i <=? j); [reflexivity|]. cbn [map snd]. rewrite IH. apply Permutation_swap.
Qed.

Lemma entries_Permutation {A} (obj : list (string * A)) : entries obj ≡ₚ obj.
Proof.
  unfold entries. induction obj as [|e obj IH]; [reflexivity|].
  cbn [fold_right]. destruct (arrayIndex (fst e)) as [i|] eqn:E.
  - rewrite insertIndexed_Permutation.
    rewrite (filter_cons_False (fun e => arrayIndex (fst e) = None) e obj) by congruence.
    cbn [app]. now rewrite IH.
  - rewrite (filter_cons_True (fun e => arrayIndex (fst e) = None) e obj E).
    rewrite <- Permutation_middle. now rewrite IH.
Qed.

Lemma pending_cons (rows : list DebtRow) :
  filter (fun r => dStatus r = "Pending"%string) rows <> [] ->
  forall (A : Type) (a b : A),
    match filter (fun r => dStatus r = "Pending"%string) rows with [] => a | _ :: _ => b end = b.
Proof. intros H A a b. destruct (filter _ rows); [contradiction | reflexivity]. Qed.

(** X12. [/debts] changes nothing. With no pending row it reports that
    there are no outstanding debts. Otherwise, when no customer is named
    like a member of [Object.prototype], it lists every pending row exactly
    once: one group per customer name (an empty name counts as [Unknown],
    names are compared exactly), holding the customer's pending rows in
    sheet order and their owed amounts added up and rounded to two
    decimals. *)
Theorem debts_lists_every_pending_row (w : World) :
  let pending := filter (fun r => dStatus r = "Pending"%string) (debts (store w)) in
  (pending = [] -> debtsCommand w = (ANoDebts, w)) /\
  (pending <> [] ->
   (forall r, r ∈ pending -> customerName r ∉ inherited) ->
   exists groups,
     debtsCommand w = (ADebts groups, w) /\
     NoDup (map gName groups) /\
     (forall r, r ∈ pending -> customerName r ∈ map gName groups) /\
     (forall g, g ∈ groups ->
        rowsOf (gName g) pending <> [] /\
        gLines g = map (fun r => (dItem r, dOwed r)) (rowsOf (gName g) pending) /\
        gTotal g = round2 (sumOf dOwed (rowsOf (gName g) pending)))).
Proof.
  intros pending. split.
  - intros Hnil. unfold debtsCommand. rewrite bind_run. cbn [getStore fst snd].
    fold pending. now rewrite Hnil.
  - intros Hne Hnames.
    assert (Hg0 : grouped [] []).
    { split; [constructor|]. split.
      - intros n. split; [intros H; inversion H | intros (r & Hr & _); inversion Hr].
      - intros n info H. inversion H. }
    destruct (groupRows_grouped pending [] [] Hg0 Hnames) as (obj & Hrun & Hnd & Hkeys & Hinfo).
    cbn [app] in Hkeys, Hinfo.
    exists (map (fun e => MkGroup (fst e) (round2 (infoTotal (snd e))) (infoItems (snd e)))
                (entries obj)).
    assert (Hnames' : map gName (map (fun e => MkGroup (fst e) (round2 (infoTotal (snd e)))
                                                       (infoItems (snd e))) (entries obj))
                      = map fst (entries obj)).
    { rewrite map_map. apply map_ext. reflexivity. }
    split; [|split; [|split]].
    + unfold debtsCommand. rewrite bind_run. cbn [getStore fst snd]. fold pending.
      rewrite (pending_cons _ Hne), Hrun. reflexivity.
    + rewrite Hnames'. now rewrite (entries_Permutation obj).
    + intros r Hr. rewrite Hnames', (entries_Permutation obj). apply Hkeys. now exists r.
    + intros g Hg. apply list_elem_of_fmap in Hg. destruct Hg as ([n info] & -> & He).
      rewrite (entries_Permutation obj) in He. cbn [gName gLines gTotal fst snd].
      rewrite (Hinfo _ _ He). cbn [infoItems infoTotal]. split; [|split; reflexivity].
      assert (Hn : n ∈ map fst obj) by (apply list_elem_of_fmap; now exists (n, info)).
      apply Hkeys in Hn. destruct Hn as (r & Hr & Hrn). intros Hnil.
      assert (Hin : r ∈ rowsOf n pending) by (apply list_elem_of_filter; now split).
      rewrite Hnil in Hin. inversion Hin.
Qed.

(** X12 at work: the three debts of Ahmed are listed as one group of 24. *)
Lemma debts_lists_every_pending_row_witness :
  exists groups,
    debtsCommand threeDebts = (ADebts groups, threeDebts) /\
    map gName groups = ["Ahmed"%string] /\ map gTotal groups = [24%float].
Proof.
  destruct (proj2 (debts_lists_every_pending_row threeDebts)) as (groups & H & _).
  - discriminate.
  - intros r Hr. apply list_elem_of_filter in Hr. destruct Hr as [_ Hr]. cbn in Hr.
    repeat (apply elem_of_cons in Hr; destruct Hr as [-> | Hr];
            [apply (bool_decide_eq_false_1 _); vm_compute; reflexivity|]).
    inversion Hr.
  - exists groups. split; [exact H|].
    assert (E : fst (debtsCommand threeDebts) = ADebts groups) by now rewrite H.
    vm_compute in E. injection E as <-. split; reflexivity.
Defined.

Lemma groupRow_keys (obj obj' : list (string * debtInfo)) (r : DebtRow) :
  groupRow obj r = Some obj' ->
  (forall n, n ∈ map fst obj -> n ∉ inherited) ->
  forall n, n ∈ map fst obj' -> n ∉ inherited.
Proof.
  unfold groupRow. intros H Hobj n Hn.
  destruct (updateOwn (customerName r) (addTo r) obj) as [obj1|] eqn:E.
  - injection H as <-. destruct (updateOwn_Some _ _ _ _ E) as (Hk & _).
    rewrite Hk in Hn. now apply Hobj.
  - destruct (bool_decide (customerName r ∈ inherited)) eqn:Hb; [discriminate|].
    injection H as <-. apply bool_decide_eq_false_1 in Hb.
    rewrite map_app in Hn. apply elem_of_app in Hn. destruct Hn as [Hn|Hn]; [now apply Hobj|].
    apply list_elem_of_singleton in Hn. now subst n.
Qed.

Lemma groupRows_throws (pending : list DebtRow) (obj : list (string * debtInfo)) (r : DebtRow) :
  r ∈ pending -> customerName r ∈ inherited ->
  (forall n, n ∈ map fst obj -> n ∉ inherited) ->
  groupRows obj pending = None.
Proof.
  revert obj. induction pending as [|r0 pending IH]; intros obj Hr Hname Hobj; [inversion Hr|].
  cbn [groupRows]. destruct (groupRow obj r0) as [obj1|] eqn:E; [|reflexivity].
  apply elem_of_cons in Hr. destruct Hr as [->|Hr].
  - exfalso. unfold groupRow in E.
    assert (Hnone : updateOwn (customerName r0) (addTo r0) obj = None).
    { apply updateOwn_None. intros Hin. exact (Hobj _ Hin Hname). }
    rewrite Hnone in E. rewrite (bool_decide_eq_true_2 _ Hname) in E. discriminate E.
  - apply (IH obj1 Hr Hname). exact (groupRow_keys _ _ _ E Hobj).
Qed.

(** X13. A pending row whose customer is named like a member of
    [Object.prototype] ([constructor], [toString], ...) makes [/debts]
    fail: the grouping throws, no listing is sent and the global error
    handler reports the error; the sheets are left as they were. *)
Theorem debts_fails_on_inherited_name (w : World) (r : DebtRow) :
  r ∈ debts (store w) -> dStatus r = "Pending"%string -> dCustomer r ∈ inherited ->
  debtsCommand w = (AError, w).
Proof.
  intros Hr Hp Hname.
  assert (Hcn : customerName r = dCustomer r).
  { unfold customerName. destruct (String.eqb (dCustomer r) "") eqn:E; [|reflexivity].
    apply String.eqb_eq in E. rewrite E in Hname. exfalso. revert Hname.
    apply (bool_decide_eq_false_1 _). vm_compute. reflexivity. }
  assert (Hin : r ∈ filter (fun r => dStatus r = "Pending"%string) (debts (store w)))
    by (apply list_elem_of_filter; now split).
  unfold debtsCommand. rewrite bind_run. cbn [getStore fst snd].
  rewrite (groupRows_throws _ [] r Hin); [| now rewrite Hcn | intros n Hn; inversion Hn].
  destruct (filter _ (debts (store w))); [inversion Hin | reflexivity].
Qed.

(** X13 at work: a customer named [constructor]. *)
Lemma debts_fails_on_inherited_name_witness :
  debtsCommand (MkWorld (MkStore [] [owes "Ahmed" 10; owes "constructor" 5] []) [])
  = (AError, MkWorld (MkStore [] [owes "Ahmed" 10; owes "constructor" 5] []) []).
Proof.
  apply (debts_fails_on_inherited_name _ (owes "constructor" 5)).
  - right. left.
  - reflexivity.
  - apply (bool_decide_eq_true_1 _). vm_compute. reflexivity.
Defined.

Lemma groupRow_names (obj obj' : list (string * debtInfo)) (r : DebtRow) :
  groupRow obj r = Some obj' ->
  map fst obj' = if bool_decide (customerName r ∈ map fst obj) then map fst obj
                 else map fst obj ++ [customerName r].
Proof.
  unfold groupRow. intros H.
  destruct (updateOwn (customerName r) (addTo r) obj) as [obj1|] eqn:E.
  - injection H as <-. destruct (updateOwn_Some _ _ _ _ E) as (Hk & (info0 & H0 & _) & _).
    rewrite bool_decide_eq_true_2; [exact Hk|].
    apply list_elem_of_fmap. now exists (customerName r, info0).
  - apply updateOwn_None in E. rewrite (bool_decide_eq_false_2 _ E).
    destruct (bool_decide (customerName r ∈ inherited)); [discriminate|].
    injection H as <-. now rewrite map_app.
Qed.

Lemma groupRows_names (pending : list DebtRow) (obj obj' : list (string * debtInfo)) :
  groupRows obj pending = Some obj' ->
  map fst obj'
  = fold_left (fun seen r => if bool_decide (customerName r ∈ seen) then seen
                             else seen ++ [customerName r]) pending (map fst obj).
Proof.
  revert obj. induction pending as [|r pending IH]; intros obj H; cbn [groupRows fold_left] in *.
  - now injection H as <-.
  - destruct (groupRow obj r) as [obj1|] eqn:E; [|discriminate].
    rewrite (IH _ H), (groupRow_names _ _ _ E). reflexivity.
Qed.

Lemma insertIndexed_sorted {A} (i : Z) (x : A) (l : list (Z * A)) :
  StronglySorted (fun a b => fst a <= fst b) l ->
  StronglySorted (fun a b => fst a <= fst b) (insertIndexed i x l).
Proof.
  induction l as [|[j y] l IH]; intros Hs; cbn [insertIndexed].
  - constructor; [apply SSorted_nil | constructor].
  - apply StronglySorted_inv in Hs. destruct Hs as [Hl Hj].
    destruct (i <=? j) eqn:E.
    + apply Z.leb_le in E. constructor; [now constructor|].
      constructor; [exact E|]. rewrite List.Forall_forall in Hj |- *.
      intros [k z] Hk. specialize (Hj _ Hk). cbn in *. lia.
    + apply Z.leb_gt in E. constructor; [now apply IH|].
      rewrite List.Forall_forall in Hj |- *. intros [k z] Hk.
      assert (Hin : In (k, z) ((i, x) :: l)).
      { apply (Permutation_in (l := insertIndexed i x l)); [|exact Hk].
        clear. induction l as [|[j' y'] l IH]; [reflexivity|]. cbn [insertIndexed].
        destruct (i <=? j'); [reflexivity|]. rewrite IH. apply perm_swap. }
      destruct Hin as [Hin|Hin]; [injection Hin as <- <-; cbn; lia | exact (Hj _ Hin)].
Qed.

Lemma indexed_part {A} (obj : list (string * A)) :
  let acc := fold_right (fun e acc => match arrayIndex (fst e) with
                                      | Some i => insertIndexed i e acc
                                      | None => acc
                                      end) [] obj in
  StronglySorted (fun a b => fst a <= fst b) acc /\
  (forall i e, In (i, e) acc -> arrayIndex (fst e) = Some i) /\
  map snd acc ≡ₚ filter (fun e => arrayIndex (fst e) <> None) obj.
Proof.
  induction obj as [|e obj IH]; cbn [fold_right].
  - split; [apply SSorted_nil|]. split; [intros i e H; inversion H | reflexivity].
  - destruct IH as (Hs & Hi & Hp). destruct (arrayIndex (fst e)) as [i|] eqn:E.
    + split; [now apply insertIndexed_sorted|]. split.
      * intros j x Hx.
        assert (Hin : In (j, x) ((i, e) :: fold_right (fun e acc => match arrayIndex (fst e) with
                                      | Some i => insertIndexed i e acc
                                      | None => acc
                                      end) [] obj)).
        { revert Hx. generalize (fold_right (fun e acc => match arrayIndex (fst e) with
                                      | Some i => insertIndexed i e acc
                                      | None => acc
                                      end) [] obj). intros l.
          induction l as [|[j' y'] l IHl]; cbn [insertIndexed]; [tauto|].
          destruct (i <=? j'); [tauto|]. intros [H|H]; [right; now left|].
          destruct (IHl H) as [H'|H']; [now left | right; now right]. }
        destruct Hin as [Hin|Hin]; [injection Hin as <- <-; exact E | now apply Hi].
      * rewrite insertIndexed_Permutation, Hp.
        rewrite (filter_cons_True (fun e => arrayIndex (fst e) <> None) e obj) by congruence.
        reflexivity.
    + split; [exact Hs|]. split; [exact Hi|].
      rewrite (filter_cons_False (fun e => arrayIndex (fst e) <> None) e obj) by (rewrite E; tauto).
      exact Hp.
Qed.

Lemma filter_map_fst {A} (P : string -> Prop) (Q : string * A -> Prop)
    `{forall n, Decision (P n)} `{forall e, Decision (Q e)} (obj : list (string * A)) :
  (forall e, Q e <-> P (fst e)) ->
  map fst (filter Q obj) = filter P (map fst obj).
Proof.
  intros HQ. induction obj as [|e obj IH]; [reflexivity|]. cbn [map].
  destruct (decide (P (fst e))) as [Hp|Hp].
  - rewrite (filter_cons_True Q e obj (proj2 (HQ e) Hp)), (filter_cons_True P _ _ Hp).
    cbn [map]. now rewrite IH.
  - rewrite (filter_cons_False Q e obj (fun H => Hp (proj1 (HQ e) H))), (filter_cons_False P _ _ Hp).
    exact IH.
Qed.

(** X14. The listing of [/debts] follows the entries of [byCustomer]:
    customers whose names are array indices (whole numbers in canonical
    form, below [2^32 - 1]) come first, in increasing order; the others
    follow in the order of their first pending row. *)
Theorem debts_listing_order (w : World) (groups : list debtGroup) :
  fst (debtsCommand w) = ADebts groups ->
  let names := firstNames (filter (fun r => dStatus r = "Pending"%string) (debts (store w))) in
  exists indexed,
    map gName groups = indexed ++ filter (fun n => arrayIndex n = None) names /\
    indexed ≡ₚ filter (fun n => arrayIndex n <> None) names /\
    StronglySorted indexLe indexed.
Proof.
  unfold debtsCommand. rewrite bind_run. cbn [getStore fst snd].
  destruct (filter _ (debts (store w))) as [|r0 pending] eqn:Hp; [discriminate|].
  destruct (groupRows [] (r0 :: pending)) as [obj|] eqn:Hrun; [|discriminate].
  cbn [ret fst]. intros [= <-].
  pose proof (groupRows_names _ _ _ Hrun) as Hnames. cbn [map] in Hnames.
  fold (firstNames (r0 :: pending)) in Hnames.
  destruct (indexed_part obj) as (Hs & Hi & Hperm). cbv zeta in Hs, Hi, Hperm.
  assert (Hn : map gName (map (fun e => MkGroup (fst e) (round2 (infoTotal (snd e)))
                                                (infoItems (snd e))) (entries obj))
               = map fst (entries obj)) by (rewrite map_map; apply map_ext; reflexivity).
  rewrite Hn. unfold entries. rewrite map_app.
  rewrite (filter_map_fst (fun n => arrayIndex n = None)
             (fun e : string * debtInfo => arrayIndex (fst e) = None) obj (fun e => reflexivity _)).
  rewrite Hnames.
  eexists. split; [reflexivity|]. split.
  - rewrite Hperm.
    rewrite (filter_map_fst (fun n => arrayIndex n <> None)
               (fun e : string * debtInfo => arrayIndex (fst e) <> None) obj
               (fun e => reflexivity _)).
    now rewrite Hnames.
  - revert Hs Hi. generalize (fold_right (fun e acc => match arrayIndex (fst e) with
                                      | Some i => insertIndexed i e acc
                                      | None => acc
                                      end) [] obj). intros l Hs Hi.
    induction l as [|[i e] l IH]; [constructor|].
    apply StronglySorted_inv in Hs. destruct Hs as [Hl Hhd]. cbn [map snd fst].
    constructor; [apply IH; [exact Hl | intros j x Hx; apply Hi; now right]|].
    rewrite List.Forall_forall in Hhd |- *. intros n Hin.
    apply in_map_iff in Hin. destruct Hin as (e' & <- & He').
    apply in_map_iff in He'. destruct He' as ([j x] & <- & Hx). cbn [snd].
    unfold indexLe. rewrite (Hi i e (or_introl eq_refl)), (Hi j x (or_intror Hx)).
    exact (Hhd _ Hx).
Qed.

(** X14 at work: customers 7 and 10 come first; 007 is not an array index and
    keeps its place after Ahmed and the customer without a name. *)
Lemma debts_listing_order_witness :
  let w := MkWorld (MkStore [] [owes "Ahmed" 10; owes "7" 8; owes "" 6; owes "Ahmed" 1.5;
                               owes "10" 2; owes "007" 1] []) [] in
  map gName (match fst (debtsCommand w) with ADebts groups => groups | _ => [] end)
  = ["7"; "10"; "Ahmed"; "Unknown"; "007"]%string /\
  exists indexed,
    ["7"; "10"; "Ahmed"; "Unknown"; "007"]%string
    = indexed ++ filter (fun n => arrayIndex n = None)
                        (firstNames (filter (fun r => dStatus r = "Pending"%string)
                                            (debts (store w)))) /\
    indexed ≡ₚ filter (fun n => arrayIndex n <> None)
                      (firstNames (filter (fun r => dStatus r = "Pending"%string)
                                          (debts (store w)))) /\
    StronglySorted indexLe indexed.
Proof.
  intros w. split; [vm_compute; reflexivity|].
  apply (debts_listing_order w
           [MkGroup "7" 8 [("Latte", 8%float)]; MkGroup "10" 2 [("Latte", 2%float)];
            MkGroup "Ahmed" 11.5 [("Latte", 10%float); ("Latte", 1.5%float)];
            MkGroup "Unknown" 6 [("Latte", 6%float)]; MkGroup "007" 1 [("Latte", 1%float)]]%string).
  vm_compute. reflexivity.
Defined.


(** ** Item names *)








Lemma trimEnd_cons (c : ascii) (s : string) :
  trimEnd (String c s)
  = match trimEnd s with
    | EmptyString => if isSpace c then EmptyString else String c EmptyString
    | t => String c t
    end.
Proof. reflexivity. Qed.

Lemma trimEnd_idem (s : string) : trimEnd (trimEnd s) = trimEnd s.
Proof.
  induction s as [|c s IH]; [reflexivity|]. rewrite trimEnd_cons.
  destruct (trimEnd s) as [|d u] eqn:E.
  - destruct (isSpace c) eqn:Hc; [reflexivity|]. rewrite trimEnd_cons. cbn [trimEnd]. now rewrite Hc.
  - rewrite trimEnd_cons, IH. reflexivity.
Qed.

Lemma trimStart_tidy (s : string) : tidyStart (trimStart s).
Proof.
  induction s as [|c s IH]; [exact I|]. cbn [trimStart].
  destruct (isSpace c) eqn:Hc; [exact IH | exact Hc].
Qed.

Lemma trimStart_of_tidy (s : string) : tidyStart s -> trimStart s = s.
Proof. destruct s as [|c s]; [reflexivity|]. cbn. now intros ->. Qed.

Lemma trimEnd_tidy (s : string) : tidyStart s -> tidyStart (trimEnd s).
Proof.
  destruct s as [|c s]; [intros _; exact I|]. cbn [tidyStart trimEnd]. intros Hc.
  destruct (trimEnd s); [now rewrite Hc | exact Hc].
Qed.

Lemma trim_idem (s : string) : trim (trim s) = trim s.
Proof.
  unfold trim.
  rewrite (trimStart_of_tidy (trimEnd (trimStart s))) by apply trimEnd_tidy, trimStart_tidy.
  apply trimEnd_idem.
Qed.





(** ** The argument of [/settle] *)

Lemma substring_all (n : nat) (t : string) :
  (String.length t <= n)%nat -> substring 0 n t = t.
Proof.
  revert n. induction t as [|c t IH]; intros n H; [now destruct n|].
  destruct n as [|n]; [cbn in H; lia|]. cbn. f_equal. apply IH. cbn in H. lia.
Qed.

Lemma removeFirst_prefix (t : string) : removeFirst "/settle" ("/settle" ++ t) = t.
Proof.
  rewrite !append_cons, append_nil_l.
  destruct t as [|c t]; [reflexivity|].
  cbn. f_equal. apply substring_all. lia.
Qed.

Lemma trimStart_blank_app (g x : string) : blank g -> trimStart (g ++ x) = trimStart x.
Proof.
  unfold blank. induction g as [|c g IH]; intros H; [now rewrite append_nil_l|].
  cbn [allChars] in H. apply andb_true_iff in H. destruct H as [Hc Hg].
  rewrite append_cons. cbn [trimStart]. rewrite Hc. now apply IH.
Qed.

Lemma trimStart_wordy_app (w x : string) : wordy w -> trimStart (w ++ x) = (w ++ x)%string.
Proof.
  intros [Hne Hw]. destruct w as [|c w]; [contradiction|].
  cbn [allChars] in Hw. apply andb_true_iff in Hw. destruct Hw as [Hc _].
  apply negb_true_iff in Hc. rewrite append_cons. cbn [trimStart]. now rewrite Hc.
Qed.

Lemma trimEnd_app_blank (s t : string) : blank t -> trimEnd (s ++ t) = trimEnd s.
Proof.
  unfold blank. intros Ht. induction s as [|c s IH].
  - rewrite append_nil_l. induction t as [|d t IHt]; [reflexivity|].
    cbn [allChars] in Ht. apply andb_true_iff in Ht. destruct Ht as [Hd Ht].
    rewrite trimEnd_cons, (IHt Ht). cbn [trimEnd]. now rewrite Hd.
  - rewrite append_cons, !trimEnd_cons, IH. reflexivity.
Qed.

Lemma trimEnd_fixed_app (a b : string) :
  b <> ""%string -> trimEnd b = b -> trimEnd (a ++ b) = (a ++ b)%string.
Proof.
  intros Hne Hb. induction a as [|c a IH]; [now rewrite append_nil_l|].
  rewrite append_cons, trimEnd_cons, IH.
  destruct (a ++ b)%string eqn:E; [|reflexivity].
  destruct a; [rewrite append_nil_l in E; contradiction | rewrite append_cons in E; discriminate].
Qed.

Lemma trimEnd_wordy (w : string) :
  allChars (fun c => negb (isSpace c)) w = true -> trimEnd w = w.
Proof.
  induction w as [|c w IH]; intros H; [reflexivity|].
  cbn [allChars] in H. apply andb_true_iff in H. destruct H as [Hc Hw].
  apply negb_true_iff in Hc. rewrite trimEnd_cons, (IH Hw).
  destruct w; [now rewrite Hc | reflexivity].
Qed.

Lemma append_not_empty (w x : string) : w <> ""%string -> (w ++ x)%string <> ""%string.
Proof. destruct w; [contradiction|]. intros _. rewrite append_cons. discriminate. Qed.

Lemma trimEnd_body (gws : list (string * string)) (w : string) :
  wordy w -> Forall gapThenWord gws ->
  trimEnd (w ++ spaced gws) = (w ++ spaced gws)%string.
Proof.
  revert w. induction gws as [|[g w2] gws IH]; intros w Hw Hgws.
  - cbn [spaced]. rewrite append_nil_r. apply trimEnd_wordy, Hw.
  - apply Forall_cons in Hgws. destruct Hgws as [(Hg & Hb & Hw2) Hgws]. cbn [fst snd] in *.
    cbn [spaced]. rewrite <- append_assoc.
    apply trimEnd_fixed_app; [apply append_not_empty, Hw2 | now apply IH].
Qed.

Lemma splitWs_wordy (g0 : bool) (cur w rest : string) :
  wordy w -> splitWs g0 cur (w ++ rest) = splitWs false (cur ++ w) rest.
Proof.
  intros [Hne Hw]. revert g0 cur. induction w as [|c w IH]; intros g0 cur; [contradiction|].
  cbn [allChars] in Hw. apply andb_true_iff in Hw. destruct Hw as [Hc Hw].
  apply negb_true_iff in Hc. rewrite append_cons. cbn [splitWs]. rewrite Hc.
  destruct w as [|d w].
  - now rewrite append_nil_l.
  - rewrite (IH ltac:(discriminate) Hw), append_assoc. reflexivity.
Qed.

Lemma splitWs_skip (cur g rest : string) :
  blank g -> splitWs true cur (g ++ rest) = splitWs true cur rest.
Proof.
  unfold blank. induction g as [|c g IH]; intros H; [now rewrite append_nil_l|].
  cbn [allChars] in H. apply andb_true_iff in H. destruct H as [Hc Hg].
  rewrite append_cons. cbn [splitWs]. rewrite Hc. now apply IH.
Qed.

Lemma splitWs_gap (cur g rest : string) :
  g <> ""%string -> blank g -> splitWs false cur (g ++ rest) = cur :: splitWs true "" rest.
Proof.
  intros Hne Hg. destruct g as [|c g]; [contradiction|].
  unfold blank in Hg. cbn [allChars] in Hg. apply andb_true_iff in Hg. destruct Hg as [Hc Hg].
  rewrite append_cons. cbn [splitWs]. rewrite Hc. now rewrite splitWs_skip.
Qed.

Lemma splitWs_body (gws : list (string * string)) (g0 : bool) (w : string) :
  wordy w -> Forall gapThenWord gws ->
  splitWs g0 "" (w ++ spaced gws) = w :: map snd gws.
Proof.
  revert g0 w. induction gws as [|[g w2] gws IH]; intros g0 w Hw Hgws.
  - cbn [spaced map]. rewrite (splitWs_wordy g0 "" w "" Hw), append_nil_l. reflexivity.
  - apply Forall_cons in Hgws. destruct Hgws as [(Hg & Hb & Hw2) Hgws]. cbn [fst snd] in *.
    cbn [spaced map snd]. rewrite (splitWs_wordy g0 "" w _ Hw), append_nil_l.
    rewrite (splitWs_gap w g _ Hg Hb). f_equal. now apply IH.
Qed.

(** The words of a [/settle] message, as the handler splits them. *)
Lemma settle_parts (gws : list (string * string)) (trailing : string) :
  Forall gapThenWord gws -> blank trailing ->
  splitWs false "" (trim (removeFirst "/settle" ("/settle" ++ spaced gws ++ trailing)))
  = match gws with [] => [""%string] | _ => map snd gws end.
Proof.
  intros Hgws Ht. rewrite removeFirst_prefix. unfold trim.
  destruct gws as [|[g w] gws].
  - cbn [spaced]. rewrite append_nil_l.
    replace (trimStart trailing) with ""%string; [reflexivity|].
    rewrite <- (append_nil_r trailing), (trimStart_blank_app trailing "" Ht). reflexivity.
  - apply Forall_cons in Hgws. destruct Hgws as [(Hg & Hb & Hw) Hgws]. cbn [fst snd] in *.
    cbn [spaced]. rewrite !append_assoc, (trimStart_blank_app g _ Hb).
    rewrite (trimStart_wordy_app w _ Hw), <- append_assoc, (trimEnd_app_blank _ trailing Ht).
    rewrite (trimEnd_body gws w Hw Hgws). cbn [map snd]. now apply splitWs_body.
Qed.

(** X16. The argument of [/settle] is read word by word, whatever the white
    space around the words: the name is the words joined by single spaces,
    and the last of several words is taken as the cap when [parseFloat]
    reads a number from it (its numeric prefix); a single word is always a
    name, and with no word at all the name is empty. *)
Theorem settle_command_arguments (gws : list (string * string)) (trailing : string) :
  Forall gapThenWord gws -> blank trailing ->
  let words := map snd gws in
  let last := List.last words ""%string in
  settleArgs ("/settle" ++ spaced gws ++ trailing)
  = if negb (PrimFloat.is_nan (parseFloat last)) && (1 <? length words)%nat
    then (String.concat " " (removelast words), Some (parseFloat last))
    else (String.concat " " words, None).
Proof.
  intros Hgws Ht words last. subst words last. unfold settleArgs.
  rewrite (settle_parts gws trailing Hgws Ht).
  destruct gws as [|gw gws]; [|reflexivity].
  cbn [map List.last length Nat.ltb Nat.leb]. rewrite andb_false_r. reflexivity.
Qed.

(** X16 at work: two words and a cap, with spaces to spare. *)
Lemma settle_command_arguments_witness :
  settleArgs "/settle   Abu  Ali 15.5dhs " = ("Abu Ali"%string, Some 15.5%float).
Proof.
  pose proof (settle_command_arguments [("   ", "Abu"); ("  ", "Ali"); (" ", "15.5dhs")]%string " ") as H.
  cbv zeta in H.
  change "/settle   Abu  Ali 15.5dhs "%string
    with ("/settle" ++ spaced [("   ", "Abu"); ("  ", "Ali"); (" ", "15.5dhs")] ++ " ")%string.
  rewrite H.
  - vm_compute. reflexivity.
  - repeat constructor; cbn; discriminate.
  - reflexivity.
Defined.

Lemma spaced_cons (g w : string) (gws : list (string * string)) :
  spaced ((g, w) :: gws) = (g ++ w ++ spaced gws)%string.
Proof. reflexivity. Qed.

Lemma spaced_single (words : list string) :
  words <> [] ->
  spaced (map (fun w => (" "%string, w)) words) = (" " ++ String.concat " " words)%string.
Proof.
  induction words as [|w words IH]; [contradiction|]. intros _.
  rewrite map_cons, spaced_cons.
  destruct words as [|w2 words].
  - cbn [map spaced String.concat]. now rewrite append_nil_r.
  - now rewrite concat_cons, (IH ltac:(discriminate)).
Qed.

Lemma concat_not_empty (words : list string) :
  words <> [] -> Forall wordy words -> String.concat " " words <> ""%string.
Proof.
  destruct words as [|w words]; [contradiction|]. intros _ H.
  apply Forall_cons in H. destruct H as [[Hne _] _].
  destruct words; [exact Hne|]. rewrite concat_cons. now apply append_not_empty.
Qed.

(** X17. The hint [/settle NAME] that [/debts] prints settles the customer:
    when NAME is made of words separated by single spaces and, if it has
    several words, its last word does not read as a number, the command
    settles every pending row whose customer is NAME up to case, without a
    cap, and leaves every other row as it was. *)
Theorem settle_hint_settles_the_customer (now : Clock) (words : list string) (w : World) :
  words <> [] -> Forall wordy words ->
  (length words = 1%nat \/ PrimFloat.is_nan (parseFloat (List.last words ""%string)) = true) ->
  let name := String.concat " " words in
  let w' := snd (settleCommand now ("/settle " ++ name) w) in
  debts (store w')
  = map (fun r => if pendingFor name r then markSettled (today now) r else r) (debts (store w)) /\
  (forall r, r ∈ debts (store w') ->
     toLowerCase (dCustomer r) = toLowerCase name -> dStatus r <> "Pending"%string).
Proof.
  intros Hne Hwords Hlast name w'. subst name w'.
  assert (Hargs : settleArgs ("/settle " ++ String.concat " " words)
                  = (String.concat " " words, None)).
  { assert (Hgws : Forall gapThenWord (map (fun w => (" "%string, w)) words)).
    { apply Forall_forall. intros gw Hgw. apply list_elem_of_fmap in Hgw.
      destruct Hgw as (x & -> & Hx). split; [discriminate|]. split; [reflexivity|].
      apply (proj1 (Forall_forall _ _) Hwords x Hx). }
    pose proof (settle_parts (map (fun w => (" "%string, w)) words) "" Hgws eq_refl) as H.
    rewrite map_map in H. cbn [snd] in H. rewrite map_id in H.
    rewrite (spaced_single words Hne), append_nil_r in H.
    change ("/settle " ++ String.concat " " words)%string
      with ("/settle" ++ " " ++ String.concat " " words)%string.
    unfold settleArgs. rewrite H.
    destruct words as [|w0 words0]; [contradiction|]. cbn [map].
    destruct Hlast as [Hlen | Hnan].
    - rewrite Hlen. cbn. now rewrite andb_false_r.
    - rewrite Hnan. reflexivity. }
  unfold settleCommand. rewrite Hargs.
  destruct (String.eqb (String.concat " " words) "") eqn:E;
    [apply String.eqb_eq in E; now apply concat_not_empty in E|].
  rewrite settleFor_run. cbn [snd store debts]. rewrite uncapped_rows. split; [reflexivity|].
  intros r Hr Hcase Hp. apply list_elem_of_fmap in Hr. destruct Hr as (r0 & -> & _).
  destruct (pendingFor (String.concat " " words) r0) eqn:Hp0.
  - cbn in Hp. discriminate Hp.
  - unfold pendingFor in Hp0. rewrite Hcase, Hp, !String.eqb_refl in Hp0. discriminate Hp0.
Qed.

(** X17 at work: [/settle Abu Ali] settles both spellings of Abu Ali and not
    Abu. *)
Lemma settle_hint_settles_the_customer_witness :
  map dStatus (debts (store (snd (settleCommand noon "/settle Abu Ali"
     (MkWorld (MkStore [] [owes "abu ali" 10; owes "Abu" 5; owes "ABU ALI" 2.5] []) [])))))
  = ["Settled"; "Pending"; "Settled"]%string.
Proof.
  pose proof (settle_hint_settles_the_customer noon ["Abu"; "Ali"]%string
                (MkWorld (MkStore [] [owes "abu ali" 10; owes "Abu" 5; owes "ABU ALI" 2.5] []) [])) as H.
  cbv zeta in H.
  change ("/settle " ++ String.concat " " ["Abu"; "Ali"])%string with "/settle Abu Ali"%string in H.
  rewrite (proj1 (H ltac:(discriminate) ltac:(repeat constructor; discriminate)
                    ltac:(right; vm_compute; reflexivity))).
  vm_compute. reflexivity.
Defined.

(** ** The matcher reports only what the pattern derives *)

Lemma length_append (s t : string) :
  String.length (s ++ t) = (String.length s + String.length t)%nat.
Proof. induction s as [|c s IH]; [now rewrite append_nil_l|]. rewrite append_cons. cbn. now rewrite IH. Qed.

Lemma substring_prefix (s t : string) :
  substring 0 (String.length (s ++ t) - String.length t) (s ++ t) = s.
Proof.
  rewrite length_append. replace (String.length s + String.length t - String.length t)%nat
    with (String.length s) by lia.
  induction s as [|c s IH].
  - rewrite append_nil_l. cbn. now destruct t.
  - rewrite append_cons. cbn. now rewrite IH.
Qed.

Lemma run_sound (r : regex) :
  forall st k m, run r st k = Some m ->
  exists s cs st',
    derives r s cs /\ rest st = (s ++ rest st')%string /\ caps st' = caps st ++ cs /\
    k st' = Some m.
Proof.
  induction r as [|c|p|r1 IH1 r2 IH2|r1 IH1 r2 IH2|r1 IH1|r1 IH1| |r1 IH1]; intros st k m H;
    cbn [run] in H.
  - exists ""%string, [], st. rewrite append_nil_l, app_nil_r. repeat split; [constructor | exact H].
  - unfold step in H. destruct (rest st) as [|a s'] eqn:E; [discriminate|].
    destruct (ciEq c a) eqn:Hc; [|discriminate].
    exists (String a ""), [], (MState (Some a) s' (caps st)). cbn [rest caps].
    rewrite app_nil_r. repeat split; [now constructor | exact H].
  - unfold step in H. destruct (rest st) as [|a s'] eqn:E; [discriminate|].
    destruct (p a) eqn:Hc; [|discriminate].
    exists (String a ""), [], (MState (Some a) s' (caps st)). cbn [rest caps].
    rewrite app_nil_r. repeat split; [now constructor | exact H].
  - apply IH1 in H. destruct H as (s1 & c1 & st1 & D1 & R1 & C1 & H).
    apply IH2 in H. destruct H as (s2 & c2 & st2 & D2 & R2 & C2 & H).
    exists (s1 ++ s2)%string, (c1 ++ c2), st2.
    rewrite R1, R2, C2, C1, append_assoc, app_assoc. repeat split; [now constructor | exact H].
  - destruct (run r1 st k) as [m'|] eqn:E.
    + injection H as <-. apply IH1 in E. destruct E as (s & c & st' & D & R & C & Hk).
      exists s, c, st'. repeat split; [now apply DAltL | exact R | exact C | exact Hk].
    + apply IH2 in H. destruct H as (s & c & st' & D & R & C & Hk).
      exists s, c, st'. repeat split; [now apply DAltR | exact R | exact C | exact Hk].
  - destruct (run r1 st k) as [m'|] eqn:E.
    + injection H as <-. apply IH1 in E. destruct E as (s & c & st' & D & R & C & Hk).
      exists s, c, st'. repeat split; [now apply DOptSome | exact R | exact C | exact Hk].
    + exists ""%string, [], st. rewrite append_nil_l, app_nil_r.
      repeat split; [apply DOptNone | exact H].
  - revert H. generalize (String.length (rest st)). intros fuel. revert st.
    induction fuel as [|fuel IHf]; intros st H.
    + exists ""%string, [], st. rewrite append_nil_l, app_nil_r.
      repeat split; [apply DStarNil | exact H].
    + match type of H with
      | match ?x with _ => _ end = _ => destruct x as [m'|] eqn:E
      end.
      * injection H as <-. apply IH1 in E. destruct E as (s1 & c1 & st1 & D1 & R1 & C1 & Hk).
        destruct (String.length (rest st1) <? String.length (rest st))%nat; [|discriminate].
        apply IHf in Hk. destruct Hk as (s2 & c2 & st2 & D2 & R2 & C2 & Hk).
        exists (s1 ++ s2)%string, (c1 ++ c2), st2.
        rewrite R1, R2, C2, C1, append_assoc, app_assoc.
        repeat split; [now constructor | exact Hk].
      * exists ""%string, [], st. rewrite append_nil_l, app_nil_r.
        repeat split; [apply DStarNil | exact H].
  - destruct (atBoundary st); [|discriminate].
    exists ""%string, [], st. rewrite append_nil_l, app_nil_r. repeat split; [constructor | exact H].
  - apply IH1 in H. destruct H as (s & c & st' & D & R & C & Hk).
    unfold consumed in Hk. rewrite R, substring_prefix in Hk.
    exists s, (c ++ [s]), (MState (prev st') (rest st') (caps st' ++ [s])).
    cbn [rest caps]. split; [now constructor|]. split; [exact R|].
    split; [now rewrite C, app_assoc | exact Hk].
Qed.

Lemma searchFrom_sound (r : regex) (s : string) :
  forall p m, searchFrom r p s = Some m ->
  exists before matched, s = (before ++ matched ++ rest m)%string /\ derives r matched (caps m).
Proof.
  induction s as [|c s IH]; intros p m H; cbn [searchFrom] in H.
  - destruct (run r (MState p "" []) Some) as [m'|] eqn:E; [|discriminate].
    injection H as <-. apply run_sound in E. destruct E as (x & cs & st' & D & R & C & Hk).
    injection Hk as <-. cbn [rest caps] in R, C. rewrite C. exists ""%string, x.
    rewrite append_nil_l. now split.
  - destruct (run r (MState p (String c s) []) Some) as [m'|] eqn:E.
    + injection H as <-. apply run_sound in E. destruct E as (x & cs & st' & D & R & C & Hk).
      injection Hk as <-. cbn [rest caps] in R, C. rewrite C. exists ""%string, x.
      rewrite append_nil_l. now split.
    + apply IH in H. destruct H as (before & matched & Hs & D).
      exists (String c before), matched. rewrite append_cons, <- Hs. now split.
Qed.

Lemma derives_groupless (r : regex) (s : string) (cs : list string) :
  derives r s cs -> groupless r = true -> cs = [].
Proof.
  induction 1 as [ | | |r1 r2 s1 s2 c1 c2 _ IH1 _ IH2| | | | | |r s1 s2 c1 c2 _ IH1 _ IH2| |];
    cbn [groupless]; intros G;
    try (apply andb_true_iff in G; destruct G as [G1 G2]);
    try discriminate; try reflexivity; try solve [auto].
  - now rewrite (IH1 G1), (IH2 G2).
  - now rewrite (IH1 G), (IH2 G).
Qed.

Lemma derives_seq (r1 r2 : regex) (s : string) (cs : list string) :
  derives (Seq r1 r2) s cs ->
  exists s1 s2 c1 c2,
    s = (s1 ++ s2)%string /\ cs = c1 ++ c2 /\ derives r1 s1 c1 /\ derives r2 s2 c2.
Proof. intros H. inversion H; subst. now eexists _, _, _, _. Qed.

Lemma derives_alt (r1 r2 : regex) (s : string) (cs : list string) :
  derives (Alt r1 r2) s cs -> derives r1 s cs \/ derives r2 s cs.
Proof. intros H. inversion H; subst; auto. Qed.

Lemma derives_opt (r : regex) (s : string) (cs : list string) :
  derives (Opt r) s cs -> (s = ""%string /\ cs = []) \/ derives r s cs.
Proof. intros H. inversion H; subst; auto. Qed.

Lemma derives_group (r : regex) (s : string) (cs : list string) :
  derives (Group r) s cs -> exists c, cs = c ++ [s] /\ derives r s c.
Proof. intros H. inversion H; subst. now eexists. Qed.

Lemma derives_wordb (s : string) (cs : list string) :
  derives WordB s cs -> s = ""%string /\ cs = [].
Proof. intros H. inversion H; subst. now split. Qed.

Lemma derives_chr (c : ascii) (s : string) (cs : list string) :
  derives (Chr c) s cs -> exists a, s = String a "" /\ ciEq c a = true.
Proof. intros H. inversion H; subst. now eexists. Qed.

Lemma derives_cls (p : ascii -> bool) (s : string) (cs : list string) :
  derives (Cls p) s cs -> exists a, s = String a "" /\ p a = true.
Proof. intros H. inversion H; subst. now eexists. Qed.

Lemma derives_star_cls (p : ascii -> bool) (s : string) (cs : list string) :
  derives (Star (Cls p)) s cs -> allChars p s = true.
Proof.
  intros H. remember (Star (Cls p)) as r eqn:Hr. revert Hr.
  induction H as [ | | | | | | | | |r0 s1 s2 c1 c2 H1 _ _ IH2| |]; intros Hr; try discriminate Hr.
  - reflexivity.
  - injection Hr as ->. apply derives_cls in H1. destruct H1 as (a & -> & Ha).
    rewrite append_cons, append_nil_l. cbn [allChars]. rewrite Ha. now apply IH2.
Qed.

Lemma derives_plus_cls (p : ascii -> bool) (s : string) (cs : list string) :
  derives (Plus (Cls p)) s cs ->
  exists a s', s = String a s' /\ p a = true /\ allChars p s' = true.
Proof.
  intros H. apply derives_seq in H. destruct H as (s1 & s2 & c1 & c2 & -> & _ & H1 & H2).
  apply derives_cls in H1. destruct H1 as (a & -> & Ha). apply derives_star_cls in H2.
  exists a, s2. now rewrite append_cons, append_nil_l.
Qed.

Lemma derives_lit (w s : string) (cs : list string) :
  derives (lit w) s cs -> sameWord w s = true.
Proof.
  revert s cs. induction w as [|c w IH]; intros s cs H.
  - inversion H; subst. reflexivity.
  - destruct w as [|d w].
    + apply derives_chr in H. destruct H as (a & -> & Ha). cbn. now rewrite Ha.
    + change (lit (String c (String d w))) with (Seq (Chr c) (lit (String d w))) in H.
      apply derives_seq in H. destruct H as (s1 & s2 & c1 & c2 & -> & _ & H1 & H2).
      apply derives_chr in H1. destruct H1 as (a & -> & Ha).
      rewrite append_cons, append_nil_l. cbn [sameWord]. rewrite Ha. exact (IH _ _ H2).
Qed.

Lemma within_seq_right (text : string) (r1 r2 : regex) (cs : list string) :
  groupless r1 = true -> within text (Seq r1 r2) cs -> within text r2 cs.
Proof.
  intros G (before & matched & after & -> & H).
  apply derives_seq in H. destruct H as (s1 & s2 & c1 & c2 & -> & -> & H1 & H2).
  rewrite (derives_groupless _ _ _ H1 G). exists (before ++ s1)%string, s2, after.
  split; [now rewrite !append_assoc | exact H2].
Qed.

Lemma within_seq_left (text : string) (r1 r2 : regex) (cs : list string) :
  groupless r2 = true -> within text (Seq r1 r2) cs -> within text r1 cs.
Proof.
  intros G (before & matched & after & -> & H).
  apply derives_seq in H. destruct H as (s1 & s2 & c1 & c2 & -> & -> & H1 & H2).
  rewrite (derives_groupless _ _ _ H2 G), app_nil_r. exists before, s1, (s2 ++ after)%string.
  split; [now rewrite !append_assoc | exact H1].
Qed.

Lemma match1_within (r : regex) (text : string) (m : string) :
  match1 r text = Some m -> exists cs, within text r cs /\ head cs = Some m.
Proof.
  unfold match1. destruct (searchFrom r None text) as [st|] eqn:E; [|discriminate].
  intros H. apply searchFrom_sound in E. destruct E as (before & matched & Ht & D).
  exists (caps st). split; [|exact H]. now exists before, matched, (rest st).
Qed.

Lemma ciEq_point (a : ascii) : ciEq "." a = true -> a = "."%char.
Proof.
  intros H. apply Ascii.eqb_eq. revert a H.
  assert (Hall : forall a, implb (ciEq "." a) (Ascii.eqb a ".") = true)
    by (apply allAscii_spec; vm_compute; reflexivity).
  intros a H. specialize (Hall a). now rewrite H in Hall.
Qed.

Lemma derives_number (s : string) (cs : list string) : derives number s cs -> numeral s.
Proof.
  intros H. apply derives_seq in H. destruct H as (ip & tl & c1 & c2 & -> & _ & H1 & H2).
  apply derives_plus_cls in H1. destruct H1 as (a & ip' & -> & Ha & Hip).
  apply derives_opt in H2. destruct H2 as [[-> _] | H2].
  - exists (String a ip'), ""%string. rewrite append_nil_r.
    split; [discriminate|]. split; [cbn [allChars]; now rewrite Ha|]. split; [reflexivity|now left].
  - apply derives_seq in H2. destruct H2 as (pt & fp & c3 & c4 & -> & _ & H3 & H4).
    apply derives_chr in H3. destruct H3 as (b & -> & Hb). apply ciEq_point in Hb. subst b.
    apply derives_plus_cls in H4. destruct H4 as (d & fp' & -> & Hd & Hfp).
    exists (String a ip'), (String d fp').
    split; [discriminate|]. split; [cbn [allChars]; now rewrite Ha|].
    split; [cbn [allChars]; now rewrite Hd|]. right. split; [discriminate|].
    reflexivity.
Qed.

Lemma amount_within (text : string) (cs : list string) (m : string) :
  within text reVerbAmount cs \/ within text reAmountVerb cs ->
  head cs = Some m ->
  exists before after, text = (before ++ m ++ after)%string /\ numeral m.
Proof.
  intros [H|H] Hm.
  - unfold reVerbAmount in H. cbn [seqs] in H.
    do 5 (apply within_seq_right in H; [|reflexivity]).
    apply within_seq_left in H; [|reflexivity].
    destruct H as (before & matched & after & -> & H).
    apply derives_group in H. destruct H as (c & -> & H).
    rewrite (derives_groupless _ _ _ H eq_refl) in Hm. cbn in Hm. injection Hm as <-.
    exists before, after. split; [reflexivity | exact (derives_number _ _ H)].
  - unfold reAmountVerb in H. cbn [seqs] in H.
    apply within_seq_right in H; [|reflexivity].
    apply within_seq_left in H; [|reflexivity].
    destruct H as (before & matched & after & -> & H).
    apply derives_group in H. destruct H as (c & -> & H).
    rewrite (derives_groupless _ _ _ H eq_refl) in Hm. cbn in Hm. injection Hm as <-.
    exists before, after. split; [reflexivity | exact (derives_number _ _ H)].
Qed.

(** X18. The paid amount read from the text is 0 for a "paid nothing" or
    "no payment" phrasing; otherwise it is the finite number that
    [parseFloat] reads from a decimal numeral written in the text (digits,
    optionally a point and digits). The heuristic yields nothing else: no
    sign, no exponent, no NaN, no Infinity. *)
Theorem extracted_amount_is_written_in_the_text (text : string) (x : float) :
  extractPaidAmount text = Some x ->
  (zeroPaymentPhrase text = true /\ x = 0%float) \/
  (zeroPaymentPhrase text = false /\
   exists before m after,
     text = (before ++ m ++ after)%string /\ numeral m /\
     x = parseFloat m /\ isFinite x = true).
Proof.
  unfold extractPaidAmount. destruct (zeroPaymentPhrase text); [intros H; injection H as <-; now left|].
  intros H. right. split; [reflexivity|].
  cbn [firstAmount] in H.
  assert (Hone : forall r, (forall cs, within text r cs ->
                              within text reVerbAmount cs \/ within text reAmountVerb cs) ->
                 forall m amount, match1 r text = Some m ->
                   parseNumberOrNull (JStr m) = Some amount -> amount = x ->
                   exists before m after,
                     text = (before ++ m ++ after)%string /\ numeral m /\
                     x = parseFloat m /\ isFinite x = true).
  { intros r Hr m amount Hm Hp <-. apply match1_within in Hm. destruct Hm as (cs & Hw & Hh).
    destruct (amount_within text cs m (Hr _ Hw) Hh) as (before & after & Ht & Hn).
    exists before, m, after. split; [exact Ht|]. split; [exact Hn|].
    unfold parseNumberOrNull in Hp. cbn [parseFloatVal] in Hp.
    destruct (isFinite (parseFloat m)) eqn:Hf; [|discriminate]. injection Hp as <-. now split. }
  destruct (match1 reVerbAmount text) as [m1|] eqn:E1.
  - destruct (parseNumberOrNull (JStr m1)) as [a1|] eqn:P1.
    + injection H as Hx. exact (Hone reVerbAmount (fun cs Hw => or_introl Hw) m1 a1 E1 P1 Hx).
    + destruct (match1 reAmountVerb text) as [m2|] eqn:E2; [|discriminate].
      destruct (parseNumberOrNull (JStr m2)) as [a2|] eqn:P2; [|discriminate].
      injection H as Hx. exact (Hone reAmountVerb (fun cs Hw => or_intror Hw) m2 a2 E2 P2 Hx).
  - destruct (match1 reAmountVerb text) as [m2|] eqn:E2; [|discriminate].
    destruct (parseNumberOrNull (JStr m2)) as [a2|] eqn:P2; [|discriminate].
    injection H as Hx. exact (Hone reAmountVerb (fun cs Hw => or_intror Hw) m2 a2 E2 P2 Hx).
Qed.

(** X18 at work: 12.50 is read from the text. *)
Lemma extracted_amount_is_written_in_the_text_witness :
  exists before m after,
    "Omar gave 12.50 dhs for two lattes"%string = (before ++ m ++ after)%string /\ numeral m /\
    12.5%float = parseFloat m /\ isFinite 12.5 = true.
Proof.
  destruct (extracted_amount_is_written_in_the_text "Omar gave 12.50 dhs for two lattes" 12.5)
    as [[H _] | [_ H]].
  - vm_compute. reflexivity.
  - vm_compute in H. discriminate H.
  - exact H.
Defined.

(** ** The customer hint *)

(** X19. The customer hinted by the text is a name written in it: a letter
    followed by letters, digits, quotes, underscores or hyphens, standing
    right after the word [to] or [for] (in any case) and white space. It is
    never empty. *)
Theorem hinted_customer_is_written_in_the_text (text who : string) :
  inferCustomerFromText text = Some who ->
  exists before keyword gap after c more,
    text = (before ++ keyword ++ gap ++ who ++ after)%string /\
    (sameWord "to" keyword = true \/ sameWord "for" keyword = true) /\
    gap <> ""%string /\ blank gap /\
    who = String c more /\ isLetter c = true /\ allChars isNameChar more = true.
Proof.
  unfold inferCustomerFromText. intros H. apply match1_within in H.
  destruct H as (cs & (before & matched & after & -> & H) & Hh).
  unfold reCustomer in H. cbn [seqs oneOf] in H.
  apply derives_seq in H. destruct H as (s0 & s1 & c0 & c1 & -> & -> & H0 & H).
  apply derives_wordb in H0. destruct H0 as [-> ->].
  apply derives_seq in H. destruct H as (kw & s2 & ck & c2 & -> & -> & Hk & H).
  apply derives_seq in H. destruct H as (gap & s3 & cg & c3 & -> & -> & Hg & H).
  apply derives_seq in H. destruct H as (nm & s4 & cn & c4 & -> & -> & Hn & H4).
  apply derives_wordb in H4. destruct H4 as [-> ->].
  rewrite (derives_groupless _ _ _ Hk eq_refl), (derives_groupless _ _ _ Hg eq_refl) in Hh.
  apply derives_group in Hn. destruct Hn as (c & -> & Hn).
  rewrite (derives_groupless _ _ _ Hn eq_refl) in Hh. cbn in Hh. injection Hh as ->.
  apply derives_plus_cls in Hg. destruct Hg as (g & gap' & -> & Hg & Hgap).
  apply derives_seq in Hn. destruct Hn as (n1 & n2 & c5 & c6 & -> & _ & Hn1 & Hn2).
  apply derives_cls in Hn1. destruct Hn1 as (a & -> & Ha). apply derives_star_cls in Hn2.
  exists before, kw, (String g gap'), after, a, n2.
  split; [now rewrite !append_nil_l, !append_nil_r, ?append_assoc|].
  split.
  { apply derives_alt in Hk. destruct Hk as [Hk|Hk]; [left|right]; exact (derives_lit _ _ _ Hk). }
  split; [discriminate|]. split; [unfold blank; cbn [allChars]; now rewrite Hg|].
  split; [now rewrite append_cons, append_nil_l|]. split; [exact Ha | exact Hn2].
Qed.

(** X19 at work: the name after [FOR] and two spaces. *)
Lemma hinted_customer_is_written_in_the_text_witness :
  exists before keyword gap after c more,
    "one espresso FOR  Abu-Ali, unpaid"%string
    = (before ++ keyword ++ gap ++ "Abu-Ali" ++ after)%string /\
    (sameWord "to" keyword = true \/ sameWord "for" keyword = true) /\
    gap <> ""%string /\ blank gap /\
    "Abu-Ali"%string = String c more /\ isLetter c = true /\ allChars isNameChar more = true.
Proof.
  apply (hinted_customer_is_written_in_the_text "one espresso FOR  Abu-Ali, unpaid" "Abu-Ali").
  vm_compute. reflexivity.
Defined.

(** ** The paid amount *)

Lemma parseNumberOrNull_finite (v : jsval) (n : float) :
  parseNumberOrNull v = Some n -> isFinite n = true.
Proof.
  unfold parseNumberOrNull. destruct (isFinite (parseFloatVal v)) eqn:E; [|discriminate].
  now intros [= <-].
Qed.

Lemma firstAmount_finite (patterns : list regex) (text : string) (x : float) :
  firstAmount patterns text = Some x -> isFinite x = true.
Proof.
  induction patterns as [|pattern more IH]; cbn [firstAmount]; [discriminate|].
  destruct (match1 pattern text) as [m|]; [|exact IH].
  destruct (parseNumberOrNull (JStr m)) as [amount|] eqn:E; [|exact IH].
  intros [= <-]. exact (parseNumberOrNull_finite _ _ E).
Qed.

Lemma explicitPaid_finite (text : string) (parsed : parsedMsg) (p : float) :
  explicitPaid text parsed = Some p -> isFinite p = true.
Proof.
  unfold explicitPaid. destruct (parseNumberOrNull (paid parsed)) as [n|] eqn:E.
  - intros [= <-]. exact (parseNumberOrNull_finite _ _ E).
  - unfold extractPaidAmount. destruct (zeroPaymentPhrase text).
    + intros [= <-]. reflexivity.
    + apply firstAmount_finite.
Qed.

Lemma finite_not_nan (x : float) : isFinite x = true -> PrimFloat.is_nan x = false.
Proof.
  unfold isFinite, PrimFloat.is_finite. intros H. apply negb_true_iff, orb_false_iff in H.
  exact (proj1 H).
Qed.

(** X20. The amount the debt branch divides among the items is the paid
    amount the resolver settled on (the language model's, else the one
    read from the text), with a zero of either sign read as 0, and 0 when
    there is none; it is always a finite number. *)
Theorem paid_amount_is_resolved_and_finite (text : string) (parsed : parsedMsg) :
  totalPaidOf (resolveIntent text parsed)
  = match explicitPaid text parsed with
    | Some p => if PrimFloat.is_zero p then 0%float else p
    | None => 0%float
    end /\
  isFinite (totalPaidOf (resolveIntent text parsed)) = true /\
  (forall p, explicitPaid text parsed = Some p -> isFinite p = true).
Proof.
  assert (Htotal : totalPaidOf (resolveIntent text parsed)
                   = match explicitPaid text parsed with
                     | Some p => if PrimFloat.is_zero p then 0%float else p
                     | None => 0%float
                     end).
  { unfold totalPaidOf, resolveIntent. cbn [paid].
    destruct (explicitPaid text parsed) as [p|] eqn:E.
    - pose proof (explicitPaid_finite _ _ _ E) as Hf.
      unfold parseNumberOrNull. cbn [parseFloatVal].
      destruct (PrimFloat.is_zero p) eqn:Hz.
      + reflexivity.
      + rewrite Hf. unfold orNum, truthy. now rewrite Hz, (finite_not_nan _ Hf).
    - unfold explicitPaid in E. destruct (parseNumberOrNull (paid parsed)); [discriminate|reflexivity]. }
  split; [exact Htotal|]. split; [|apply explicitPaid_finite].
  rewrite Htotal. destruct (explicitPaid text parsed) as [p|] eqn:E; [|reflexivity].
  destruct (PrimFloat.is_zero p); [reflexivity | exact (explicitPaid_finite _ _ _ E)].
Qed.

(** ** Record, then settle *)

Lemma debtor_tidy (parsed : parsedMsg) : trim (debtor parsed) = debtor parsed.
Proof. unfold debtor. apply trim_idem. Qed.

(** X21. A debt can be settled under the name it was recorded with: the
    Debts rows the debt branch writes for a customer are pending rows of
    that customer, and a settle request for the same customer, without a
    cap, marks every one of them settled and leaves no row of the customer
    pending. *)
Theorem recorded_debt_can_be_settled (now later : Clock) (parsed : parsedMsg) (w : World)
    (c : ascii) (s : string) (kind : string) (its : option (list item)) :
  customer parsed = Some (String c s) ->
  let w1 := snd (recordDebt now parsed w) in
  let w2 := snd (settleIntent later (Parsed kind its (customer parsed) JNull) w1) in
  exists new,
    debts (store w1) = debts (store w) ++ new /\
    (forall r, r ∈ new -> dCustomer r = debtor parsed /\ dStatus r = "Pending"%string) /\
    (forall r, r ∈ new -> markSettled (today later) r ∈ debts (store w2)) /\
    (forall r, r ∈ debts (store w2) -> dCustomer r = debtor parsed ->
               dStatus r <> "Pending"%string).
Proof.
  intros Hc w1 w2.
  assert (Hsettle : debts (store w2)
                    = map (fun r => if pendingFor (debtor parsed) r
                                    then markSettled (today later) r else r) (debts (store w1))).
  { subst w2. unfold settleIntent. cbn [customer]. rewrite Hc.
    replace (trim (String c s)) with (debtor parsed) by (unfold debtor; now rewrite Hc).
    replace (settleAmount (Parsed kind its (Some (String c s)) JNull)) with (@None float)
      by (vm_compute; reflexivity).
    rewrite settleFor_run. cbn [snd store debts]. apply uncapped_rows. }
  assert (Hnew : exists new,
             debts (store w1) = debts (store w) ++ new /\
             forall r, r ∈ new -> dCustomer r = debtor parsed /\ dStatus r = "Pending"%string).
  { subst w1. rewrite recordDebt_run. cbv zeta. cbn [snd].
    destruct (itemsOf parsed) as [|it0 its0]; [exists []; rewrite app_nil_r; split; [reflexivity | intros r Hr; inversion Hr]|].
    destruct (omap validOf (it0 :: its0)) as [|v0 vs0]; [exists []; rewrite app_nil_r; split; [reflexivity | intros r Hr; inversion Hr]|].
    destruct (PrimFloat.ltb _ _); [exists []; rewrite app_nil_r; split; [reflexivity | intros r Hr; inversion Hr]|].
    eexists. split; [reflexivity|]. intros r Hr.
    apply list_elem_of_In, in_flat_map in Hr. destruct Hr as (v & _ & Hr).
    unfold itemDebts in Hr. apply in_concat in Hr. destruct Hr as (l & Hl & Hr).
    apply list_elem_of_In, elem_of_replicate in Hl. destruct Hl as [-> _].
    unfold unitDebt in Hr. destruct (PrimFloat.ltb 0 _); [|inversion Hr].
    destruct Hr as [<-|[]]. split; reflexivity. }
  destruct Hnew as (new & Hw1 & Hnew). exists new.
  split; [exact Hw1|]. split; [exact Hnew|]. split.
  - intros r Hr. rewrite Hsettle. apply list_elem_of_fmap. exists r.
    destruct (Hnew r Hr) as [Hcust Hs].
    unfold pendingFor. rewrite Hcust, Hs, !String.eqb_refl. cbn [andb].
    split; [reflexivity|]. rewrite Hw1. apply elem_of_app. now right.
  - intros r Hr Hcust Hs. rewrite Hsettle in Hr. apply list_elem_of_fmap in Hr.
    destruct Hr as (r0 & -> & Hr0).
    destruct (pendingFor (debtor parsed) r0) eqn:Hp; [discriminate Hs|].
    unfold pendingFor in Hp. rewrite Hcust, Hs, !String.eqb_refl in Hp. discriminate Hp.
Qed.

(** X21 at work: two lattes for Ahmed with 30 paid, then settled. *)
Lemma recorded_debt_can_be_settled_witness :
  let parsed := Parsed "debt" (Some [Item (Some "latte") (Some 2)]) (Some " Ahmed ") (JNum 30) in
  let w1 := snd (recordDebt noon parsed emptyWorld) in
  let w2 := snd (settleIntent later (Parsed "settle" None (Some " Ahmed ") JNull) w1) in
  exists new,
    debts (store w1) = [] ++ new /\
    (forall r, r ∈ new -> dCustomer r = "Ahmed"%string /\ dStatus r = "Pending"%string) /\
    (forall r, r ∈ new -> markSettled "2026-03-01" r ∈ debts (store w2)) /\
    (forall r, r ∈ debts (store w2) -> dCustomer r = "Ahmed"%string ->
               dStatus r <> "Pending"%string).
Proof.
  exact (recorded_debt_can_be_settled noon later
           (Parsed "debt" (Some [Item (Some "latte") (Some 2)]) (Some " Ahmed ") (JNum 30))
           emptyWorld " " "Ahmed " "settle" None eq_refl).
Defined.

(** X22. Settling a debt changes no Sales row, so the figures [/summary]
    adds up from Sales (sales, collected and unpaid amounts, today's and
    all-time, and the number of transactions) are the same after a
    settlement as before: a settlement only moves the unsettled total. *)
Theorem settlement_leaves_sales_figures (who : string) (amount : option float)
    (now asked : Clock) (w : World) :
  let w' := snd (settleFor who amount now w) in
  sales (store w') = sales (store w) /\
  exists figures before after,
    summaryCommand asked w = (ASummary (today asked) figures before, w) /\
    summaryCommand asked w' = (ASummary (today asked) figures after, w') /\
    after = sumOf dOwed (filter (fun r => dStatus r = "Pending"%string) (debts (store w'))).
Proof.
  intros w'. assert (Hs : sales (store w') = sales (store w)).
  { subst w'. now rewrite settleFor_run. }
  split; [exact Hs|]. eexists _, _, _. rewrite !summaryCommand_run, Hs.
  repeat split; reflexivity.
Qed.
